(** * AI-IPST proxy and scripting services: a Rocq model of the service layer

    The development embeds the two services of the repository,
    [src/services/proxyService.js] (class [ProxyService]) and
    [src/services/scriptService.js] (class [ScriptService]), together with
    the two Mongoose models they persist through
    ([src/models/ProxyConfig.js], [src/models/Userscript.js]), the
    helpers they import ([src/utils/helpers.js]), the proxy middleware
    ([src/middleware/proxyMiddleware.js]), the route of the configuration
    update ([src/routes/proxyRoutes.js]) and the way [app.js] mounts
    them.

    JavaScript objects live in a heap of property maps and are passed by
    reference, so that copies and aliases can be told apart.  A collection
    of the document store is a list of documents in insertion order.
    Every service method is a function from the state it touches to a
    result (a value or one of the error classes of [src/utils/errors])
    and the new state.  [logger] calls write to the log sink only and are
    left out. *)

From stdpp Require Import gmap strings list fin_maps pretty sorting.
From Stdlib Require Import Ascii ZArith Lia.

Open Scope string_scope.

(** ** JavaScript values and the object heap *)

Module JS.

Definition loc := nat.

(** Numbers are the integers plus [NaN]; functions and symbols are not
    modelled.  Arrays are objects whose own enumerable properties are
    their indices. *)
Inductive value :=
| VUndef
| VNull
| VBool (b : bool)
| VNum (z : Z)
| VNaN
| VStr (s : string)
| VRef (l : loc).

#[global] Instance value_eq_dec : EqDecision value.
Proof. solve_decision. Defined.

Abbreviation obj := (gmap string value).
Abbreviation heap := (gmap loc obj).

(** ToBoolean *)
Definition truthy (v : value) : bool :=
  match v with
  | VUndef | VNull | VNaN => false
  | VBool b => b
  | VNum z => negb (Z.eqb z 0)
  | VStr s => negb (bool_decide (s = EmptyString))
  | VRef _ => true
  end.

Definition typeof (v : value) : string :=
  match v with
  | VUndef => "undefined"
  | VNull => "object"
  | VBool _ => "boolean"
  | VNum _ | VNaN => "number"
  | VStr _ => "string"
  | VRef _ => "object"
  end.

(** The own properties of the object at [l]. *)
Definition props (h : heap) (l : loc) : obj := default ∅ (h !! l).

(** [v.k] for an object [v]: [undefined] when the property is absent.
    [Object.prototype] has none of the properties the services read. *)
Definition get (h : heap) (v : value) (k : string) : value :=
  match v with
  | VRef l => default VUndef (props h l !! k)
  | _ => VUndef
  end.

Fixpoint chars (s : string) : list string :=
  match s with
  | EmptyString => []
  | String c s' => String c EmptyString :: chars s'
  end.

(** What [{...v}] copies: the own enumerable properties of an object,
    the indexed characters of a string, nothing for the other
    primitives, [null] and [undefined]. *)
Definition own_props (h : heap) (v : value) : obj :=
  match v with
  | VRef l => props h l
  | VStr s => list_to_map (imap (λ i c, (pretty i, VStr c)) (chars s))
  | _ => ∅
  end.

(** A new object literal is stored at a location the heap does not use. *)
Definition alloc (h : heap) (o : obj) : loc * heap :=
  let l := fresh (dom h) in (l, <[l := o]> h).

(** [o.k = v] on the object at [l]. *)
Definition set_prop (h : heap) (l : loc) (k : string) (v : value) : heap :=
  <[l := <[k := v]> (props h l)]> h.

End JS.
Import JS.

(** ** Errors and results *)

Inductive error :=
| InvalidRequestError (message : string)
| ProxyConfigurationError (message : string)
| ProxyTrafficLogError (message : string)
| InvalidScriptError (message : string)
| ScriptExecutionError (message : string).

Inductive result (A : Type) :=
| Ok (a : A)
| Err (e : error).
Arguments Ok {A} a.
Arguments Err {A} e.

#[global] Instance error_eq_dec : EqDecision error.
Proof. solve_decision. Defined.

(** ** The helpers module ([src/utils/helpers.js])

    The object the module exports has five properties, the functions
    [isValidUrl], [sanitizeHtml], [hashData], [generateRandomToken] and
    [parseQueryParams].  The two services destructure three other names
    from it, [sanitizeScript], [makeHttpRequest] and
    [transformRequestResponse]: the object has no such property, so
    that each of the three is [undefined] in the service that imports
    it, and a call of it throws a [TypeError].  An imported helper is an
    optional function, [None] standing for [undefined]. *)

Module Helpers.

Definition exports : list string :=
  ["isValidUrl"; "sanitizeHtml"; "hashData"; "generateRandomToken";
   "parseQueryParams"].

(** [const { sanitizeScript } = require('../utils/helpers')] in
    [scriptService.js]: not among the exports. *)
Definition sanitizeScript {A : Type} : option A := None.

(** [const { makeHttpRequest, transformRequestResponse } =
    require('../utils/helpers')] in [proxyService.js]: neither is among
    the exports. *)
Definition makeHttpRequest {A : Type} : option A := None.

Definition transformRequestResponse {A : Type} : option A := None.

End Helpers.

(** ** Regular expressions of the traffic query

    The filter [{ $regex: new RegExp(pattern, 'i') }]: the JavaScript
    constructor compiles the pattern, and throws on a syntax error; the
    store evaluates it on the field.  For a pattern made of ordinary
    characters and [.] only, the search is carried out here; every other
    pattern is handed to [engine], which stands for the rest of the
    regular-expression language ([None]: the constructor throws).
    Strings are ASCII. *)

Module RegExp.

Inductive atom :=
| AChar (c : ascii)
| AAny.

Definition special (c : ascii) : bool :=
  bool_decide (c ∈ ["\"; "^"; "$"; "."; "*"; "+"; "?"; "("; ")"; "[";
                    "]"; "{"; "}"; "|"]%char).

Fixpoint atoms_of (pattern : string) : option (list atom) :=
  match pattern with
  | EmptyString => Some []
  | String c p =>
      if bool_decide (c = "."%char) then cons AAny <$> atoms_of p
      else if special c then None
      else cons (AChar c) <$> atoms_of p
  end.

(** Case folding of the flag [i], on ASCII letters. *)
Definition lower (c : ascii) : ascii :=
  let n := nat_of_ascii c in
  if (65 <=? n)%nat && (n <=? 90)%nat then ascii_of_nat (n + 32) else c.

(** [.] stands for any character but the newline. *)
Definition atom_matches (a : atom) (c : ascii) : bool :=
  match a with
  | AChar p => bool_decide (lower p = lower c)
  | AAny => negb (bool_decide (c = "010"%char))
  end.

Fixpoint match_here (p : list atom) (s : string) : bool :=
  match p, s with
  | [], _ => true
  | _ :: _, EmptyString => false
  | a :: p', String c s' => atom_matches a c && match_here p' s'
  end.

Fixpoint search (p : list atom) (s : string) : bool :=
  match_here p s ||
  match s with
  | EmptyString => false
  | String _ s' => search p s'
  end.

(** [new RegExp(pattern, 'i')]: the compiled test, or [None] when the
    constructor throws. *)
Definition compile_i (engine : string → option (string → bool))
    (pattern : string) : option (string → bool) :=
  match atoms_of pattern with
  | Some p => Some (search p)
  | None => engine pattern
  end.

End RegExp.

(** ** The ProxyConfig model ([src/models/ProxyConfig.js]) *)

Module ProxyConfig.

(** A document of the [ProxyConfig] collection.  The first six fields
    after [_id] are the paths of [proxyConfigSchema]; [targetUrl] and
    [method] are not schema paths, but the traffic query filters on them,
    so a stored document may carry them. *)
Record document := {
  _id : string;
  targetHostname : option string;
  targetPort : option Z;
  requestModifications : option obj;
  responseModifications : option obj;
  createdAt : Z;
  updatedAt : Z;
  targetUrl : option string;
  method : option string
}.

#[global] Instance document_eq_dec : EqDecision document.
Proof. solve_decision. Defined.

(** An object handed to the model: the values it has for the four
    paths below, of the types of the schema.  Strict mode drops the keys
    that are not schema paths.  The object is taken to have none of the
    three other schema paths ([createdAt], [updatedAt], [_id]), and no
    value that Mongoose cannot cast to the type of its path: an object
    that has one is outside the model. *)
Record paths := {
  p_targetHostname : option string;
  p_targetPort : option Z;
  p_requestModifications : option obj;
  p_responseModifications : option obj
}.

Definition host_char (c : ascii) : bool :=
  let n := nat_of_ascii c in
  ((97 <=? n)%nat && (n <=? 122)%nat) || ((65 <=? n)%nat && (n <=? 90)%nat)
  || ((48 <=? n)%nat && (n <=? 57)%nat) || bool_decide (c = "-"%char).

(** [/^[a-zA-Z0-9-]+(\.[a-zA-Z0-9-]+)*$/.test(value)]; [in_label] tells
    whether the current label already has a character. *)
Fixpoint hostname_scan (in_label : bool) (s : string) : bool :=
  match s with
  | EmptyString => in_label
  | String c s' =>
      if host_char c then hostname_scan true s'
      else if bool_decide (c = "."%char) then in_label && hostname_scan false s'
      else false
  end.

Definition hostname_validator (value : string) : bool :=
  hostname_scan false value.

(** [required: true] with the custom validator; [required] rejects the
    empty string. *)
Definition valid_targetHostname (v : option string) : bool :=
  match v with
  | Some s => negb (bool_decide (s = EmptyString)) && hostname_validator s
  | None => false
  end.

(** [required: true, min: 1, max: 65535] *)
Definition valid_targetPort (v : option Z) : bool :=
  match v with
  | Some p => (1 <=? p)%Z && (p <=? 65535)%Z
  | None => false
  end.

(** Document validation, as [save()] runs it. *)
Definition validate (d : document) : bool :=
  valid_targetHostname (targetHostname d) && valid_targetPort (targetPort d).

(** Update validation, as [runValidators: true] runs it: only the paths
    the update sets are checked. *)
Definition validate_update (u : paths) : bool :=
  match p_targetHostname u with
  | Some s => valid_targetHostname (Some s)
  | None => true
  end &&
  match p_targetPort u with
  | Some p => valid_targetPort (Some p)
  | None => true
  end.

(** [new ProxyConfig(obj)]: the schema paths of [obj], and the defaults
    [Date.now] of [createdAt] and [updatedAt]. *)
Definition new (id : string) (now : Z) (o : paths) : document :=
  {| _id := id;
     targetHostname := p_targetHostname o;
     targetPort := p_targetPort o;
     requestModifications := p_requestModifications o;
     responseModifications := p_responseModifications o;
     createdAt := now;
     updatedAt := now;
     targetUrl := None;
     method := None |}.

(** [doc.save()] of a new document: validation, then the insert. *)
Definition save (d : document) (coll : list document)
  : option (list document) :=
  if validate d then Some (app coll [d]) else None.

(** The update document [{ $set: u }] applied to [d]. *)
Definition apply_update (u : paths) (d : document) : document :=
  {| _id := _id d;
     targetHostname := from_option Some (targetHostname d) (p_targetHostname u);
     targetPort := from_option Some (targetPort d) (p_targetPort u);
     requestModifications :=
       from_option Some (requestModifications d) (p_requestModifications u);
     responseModifications :=
       from_option Some (responseModifications d) (p_responseModifications u);
     createdAt := createdAt d;
     updatedAt := updatedAt d;
     targetUrl := targetUrl d;
     method := method d |}.

Record update_options := {
  opt_new : bool;
  opt_upsert : bool;
  opt_runValidators : bool
}.

(** [ProxyConfig.findOneAndUpdate({}, u, options)].  The empty filter
    matches every document, so the first one in the collection is the one
    updated; with [upsert] an empty collection receives a new document
    built from the update.  Validators run only under [runValidators].
    [None]: the call rejects. *)
Definition findOneAndUpdate (id : string) (now : Z) (u : paths)
    (options : update_options) (coll : list document)
  : option (list document) :=
  if opt_runValidators options && negb (validate_update u) then None
  else match coll with
       | d :: rest => Some (apply_update u d :: rest)
       | [] => Some (if opt_upsert options then [new id now u] else [])
       end.

(** [ProxyConfig.findOne({})] *)
Definition findOne (coll : list document) : option document := head coll.

End ProxyConfig.

(** ** ProxyService ([src/services/proxyService.js]) *)

Module ProxyService.
Import ProxyConfig.

(** The argument of [makeHttpRequest]: the two environment variables and
    the request's [url] that make up the target URL, then [method],
    [headers] and [body]. *)
Record http_call := {
  hc_hostname : option string;
  hc_port : option string;
  hc_url : value;
  hc_method : value;
  hc_headers : value;
  hc_body : value
}.

(** [process.env] *)
Record env := {
  PROXY_TARGET_HOSTNAME : option string;
  PROXY_TARGET_PORT : option string
}.

(** What the service can reach: the object heap, the [ProxyConfig]
    collection, the counter document identifiers are drawn from, and the
    calls made to the target so far. *)
Record world := {
  w_heap : heap;
  w_configs : list document;
  w_next_id : nat;
  w_http : list http_call
}.

Definition with_heap (w : world) (h : heap) : world :=
  {| w_heap := h; w_configs := w_configs w; w_next_id := w_next_id w;
     w_http := w_http w |}.

Definition with_configs (w : world) (c : list document) : world :=
  {| w_heap := w_heap w; w_configs := c; w_next_id := S (w_next_id w);
     w_http := w_http w |}.

Definition with_call (w : world) (c : http_call) : world :=
  {| w_heap := w_heap w; w_configs := w_configs w; w_next_id := w_next_id w;
     w_http := app (w_http w) [c] |}.

Definition getProxyConfig (w : world) : result (option document) * world :=
  (Ok (findOne (w_configs w)), w).

(** [findOneAndUpdate({}, config, { new: true, upsert: true })].  No
    validator runs, so that the store rejects no update object of
    [paths]. *)
Definition updateProxyConfig (now : Z) (config : paths) (w : world)
  : result unit * world :=
  match findOneAndUpdate (pretty (w_next_id w)) now config
          {| opt_new := true; opt_upsert := true; opt_runValidators := false |}
          (w_configs w) with
  | Some c => (Ok tt, with_configs w c)
  | None => (Err (ProxyConfigurationError "Error updating proxy configuration"), w)
  end.

Record filters := {
  startDate : Z;
  endDate : Z;
  f_targetUrl : option string;
  f_method : option string;
  page : Z;
  limit : Z
}.

(** [if (filters.x)] for a string-or-absent [x]: the empty string is
    falsy. *)
Definition given (x : option string) : option string :=
  match x with
  | Some s => if bool_decide (s = EmptyString) then None else Some s
  | None => None
  end.

(** Whether a document satisfies
    [{ createdAt: { $gte, $lte }, targetUrl: { $regex }, method }];
    a condition on a field the document lacks is not met. *)
Definition matches (test : option (string → bool)) (f : filters)
    (d : document) : bool :=
  (startDate f <=? createdAt d)%Z && (createdAt d <=? endDate f)%Z
  && match test with
     | Some t => match targetUrl d with Some u => t u | None => false end
     | None => true
     end
  && match given (f_method f) with
     | Some m => bool_decide (method d = Some m)
     | None => true
     end.

(** [.limit(n)]: zero means no limit, a negative [n] its absolute
    value. *)
Definition limit_to (n : Z) (l : list document) : list document :=
  if (n =? 0)%Z then l else take (Z.to_nat (Z.abs n)) l.

(** [getProxyTraffic(filters)].  [sort_desc] is the store's
    [.sort({ createdAt: -1 })]; the store rejects a negative [skip]. *)
Definition getProxyTraffic (engine : string → option (string → bool))
    (sort_desc : list document → list document)
    (f : filters) (w : world) : result (list document) * world :=
  let failed := (Err (ProxyTrafficLogError "Error fetching proxy traffic"), w) in
  let query :=
    match given (f_targetUrl f) with
    | Some pattern =>
        match RegExp.compile_i engine pattern with
        | Some t => Some (Some t)
        | None => None
        end
    | None => Some None
    end in
  match query with
  | None => failed
  | Some test =>
      let found := sort_desc (List.filter (matches test f) (w_configs w)) in
      let skip := ((page f - 1) * limit f)%Z in
      if (skip <? 0)%Z then failed
      else (Ok (limit_to (limit f) (drop (Z.to_nat skip) found)), w)
  end.

(** The object literal shared by [modifyProxyRequest],
    [modifyProxyResponse] and [injectCustomResponse]:
    [{ ...data, headers: { ...data.headers },
       body: data.body ? { ...data.body } : null }].
    The objects read were all allocated before the literal is evaluated,
    so they are read from the heap [h] the call starts with. *)
Definition copy_message (h : heap) (data : value) : value * heap :=
  let top := own_props h data in
  let (lh, h1) := alloc h (own_props h (get h data "headers")) in
  let body := get h data "body" in
  let (vb, h2) :=
    if truthy body
    then let (lb, h2) := alloc h1 (own_props h body) in (VRef lb, h2)
    else (VNull, h1) in
  let (lo, h3) := alloc h2 (<["body" := vb]> (<["headers" := VRef lh]> top)) in
  (VRef lo, h3).

(** [!data || typeof data !== 'object'] *)
Definition invalid_data (data : value) : bool :=
  negb (truthy data) || negb (bool_decide (typeof data = "object")).

Definition modify (message : string) (data : value) (w : world)
  : result value * world :=
  if invalid_data data then (Err (InvalidRequestError message), w)
  else let (v, h) := copy_message (w_heap w) data in (Ok v, with_heap w h).

Definition modifyProxyRequest (requestData : value) (w : world)
  : result value * world :=
  modify "Invalid request data" requestData w.

Definition modifyProxyResponse (responseData : value) (w : world)
  : result value * world :=
  modify "Invalid response data" responseData w.

Definition injectCustomResponse (responseData : value) (w : world)
  : result value * world :=
  modify "Invalid response data" responseData w.

(** Reading a property of [null] or [undefined] throws a [TypeError]. *)
Definition nullish (v : value) : bool :=
  match v with
  | VUndef | VNull => true
  | _ => false
  end.

(** The object given to [new ProxyConfig] by [logProxyTraffic] has the
    keys [method], [url], [headers], [body], [statusCode],
    [responseHeaders] and [responseBody]: none of them is a schema path,
    so the new document is left with no path set. *)
Definition traffic_entry : paths :=
  {| p_targetHostname := None; p_targetPort := None;
     p_requestModifications := None; p_responseModifications := None |}.

Definition logProxyTraffic (now : Z) (request response : value) (w : world)
  : result unit * world :=
  let failed := (Err (ProxyTrafficLogError "Error logging proxy traffic"), w) in
  if nullish request || nullish response then failed
  else
    let proxyTraffic := new (pretty (w_next_id w)) now traffic_entry in
    match save proxyTraffic (w_configs w) with
    | Some c => (Ok tt, with_configs w c)
    | None => failed
    end.

(** [forwardProxyRequest(modifiedRequest)].  [makeHttpRequest] and
    [transformRequestResponse] are the two imports from
    [../utils/helpers]: [None] when the import is [undefined], so that
    the call of it throws; else a function, whose own [None] stands for
    a call that throws or rejects.  A call is recorded in [w_http] when
    [makeHttpRequest] is entered. *)
Definition forwardProxyRequest (e : env)
    (makeHttpRequest : option (http_call → heap → option (value * heap)))
    (transformRequestResponse : option (value → heap → option (value * heap)))
    (now : Z) (modifiedRequest : value) (w : world) : result value * world :=
  let failed w' :=
    (Err (ProxyTrafficLogError "Error forwarding proxy request"), w') in
  if nullish modifiedRequest then failed w
  else
    let call :=
      {| hc_hostname := PROXY_TARGET_HOSTNAME e;
         hc_port := PROXY_TARGET_PORT e;
         hc_url := get (w_heap w) modifiedRequest "url";
         hc_method := get (w_heap w) modifiedRequest "method";
         hc_headers := get (w_heap w) modifiedRequest "headers";
         hc_body := get (w_heap w) modifiedRequest "body" |} in
    match makeHttpRequest with
    | None => failed w
    | Some request =>
        let w1 := with_call w call in
        match request call (w_heap w1) with
        | None => failed w1
        | Some (response, h2) =>
            match transformRequestResponse with
            | None => failed (with_heap w1 h2)
            | Some transform =>
                match transform response h2 with
                | None => failed (with_heap w1 h2)
                | Some (transformedResponse, h3) =>
                    match logProxyTraffic now modifiedRequest
                            transformedResponse (with_heap w1 h3) with
                    | (Ok _, w4) => (Ok transformedResponse, w4)
                    | (Err _, w4) => failed w4
                    end
                end
            end
        end
    end.

End ProxyService.

(** ** The route and controller of [PUT /api/proxy/config]
    ([src/routes/proxyRoutes.js], [src/controllers/proxyController.js]) *)

Module ProxyRoutes.
Import ProxyConfig ProxyService.

(** The line terminators of a JavaScript regular expression, in ASCII. *)
Definition line_terminator (c : ascii) : bool :=
  bool_decide (c = "010"%char) || bool_decide (c = "013"%char).

(** What may follow a character of [[a-zA-Z0-9-]] in a string that
    [/^[a-zA-Z0-9-]+(.[a-zA-Z0-9-]+)*$/] matches.  The dot of the route's
    pattern is not escaped: it stands for any character but a line
    terminator, and must be followed by a character of the class. *)
Fixpoint after_host_char (s : string) : bool :=
  match s with
  | EmptyString => true
  | String c s' =>
      if host_char c then after_host_char s'
      else
        negb (line_terminator c) &&
        match s' with
        | EmptyString => false
        | String c' s'' => host_char c' && after_host_char s''
        end
  end.

(** [body('targetHostname').notEmpty().isString().matches(...)] *)
Definition check_targetHostname (v : option string) : bool :=
  match v with
  | Some (String c s) => host_char c && after_host_char s
  | _ => false
  end.

(** [body('targetPort').notEmpty().isInt({ min: 1, max: 65535 })].  A
    port of [paths] is an integer, and on an integer [isInt] is the
    check of the range; a number with a fractional part, which [isInt]
    refuses, is not a value of [paths]. *)
Definition check_targetPort (v : option Z) : bool :=
  match v with
  | Some p => (1 <=? p)%Z && (p <=? 65535)%Z
  | None => false
  end.

Inductive reply :=
| BadRequest
| Updated
| Failed (e : error).

(** The handlers of the router for [PUT /config], for a request that
    passed [authMiddleware.authenticate()]: the route's validation
    chain, then [ProxyController.updateProxyConfig], which answers with
    status 400 when [validationResult] has errors, and else calls the
    service and answers with status 200, or passes the error to [next].
    This is the router by itself; what [app.js] mounts in front of it
    is in [App] below. *)
Definition put_config (now : Z) (body : paths) (w : world) : reply * world :=
  if check_targetHostname (p_targetHostname body)
     && check_targetPort (p_targetPort body)
  then match updateProxyConfig now body w with
       | (Ok _, w') => (Updated, w')
       | (Err e, w') => (Failed e, w')
       end
  else (BadRequest, w).

End ProxyRoutes.

(** ** The Userscript model ([src/models/Userscript.js]) *)

Module Userscript.

Record document := {
  _id : string;
  name : string;
  description : string;
  content : string;
  createdAt : Z;
  updatedAt : Z
}.

#[global] Instance document_eq_dec : EqDecision document.
Proof. solve_decision. Defined.

(** The schema paths of an object handed to the model ([scriptData],
    [updates]); strict mode drops every other key. *)
Record paths := {
  p_name : option string;
  p_description : option string;
  p_content : option string
}.

(** [\w] or [-] *)
Definition name_char (c : ascii) : bool :=
  let n := nat_of_ascii c in
  ((97 <=? n)%nat && (n <=? 122)%nat) || ((65 <=? n)%nat && (n <=? 90)%nat)
  || ((48 <=? n)%nat && (n <=? 57)%nat) || bool_decide (c = "_"%char)
  || bool_decide (c = "-"%char).

Fixpoint all_chars (p : ascii → bool) (s : string) : bool :=
  match s with
  | EmptyString => true
  | String c s' => p c && all_chars p s'
  end.

(** [/^[\w\-]+$/.test(value)] *)
Definition name_validator (value : string) : bool :=
  negb (bool_decide (value = EmptyString)) && all_chars name_char value.

(** The setter [trim: true], on ASCII white space. *)
Definition white_space (c : ascii) : bool :=
  let n := nat_of_ascii c in
  ((9 <=? n)%nat && (n <=? 13)%nat) || (n =? 32)%nat.

Fixpoint trim_start (s : string) : string :=
  match s with
  | EmptyString => EmptyString
  | String c s' => if white_space c then trim_start s' else s
  end.

Fixpoint trim_end (s : string) : string :=
  match s with
  | EmptyString => EmptyString
  | String c s' =>
      match trim_end s' with
      | EmptyString => if white_space c then EmptyString else String c EmptyString
      | r => String c r
      end
  end.

Definition trim (s : string) : string := trim_end (trim_start s).

(** The setters of the schema applied to the paths of an object. *)
Definition cast (o : paths) : paths :=
  {| p_name := trim <$> p_name o;
     p_description := trim <$> p_description o;
     p_content := p_content o |}.

(** [required: true] on a string path rejects a missing value and the
    empty string. *)
Definition required (v : option string) : bool :=
  match v with
  | Some s => negb (bool_decide (s = EmptyString))
  | None => false
  end.

(** Validation of a new document, as [save()] runs it. *)
Definition validate (o : paths) : bool :=
  required (p_name o) && from_option name_validator false (p_name o)
  && required (p_description o) && required (p_content o).

(** Validation of an update, as [runValidators: true] runs it: only the
    paths the update sets are checked. *)
Definition validate_update (u : paths) : bool :=
  match p_name u with
  | Some s => required (Some s) && name_validator s
  | None => true
  end
  && match p_description u with Some s => required (Some s) | None => true end
  && match p_content u with Some s => required (Some s) | None => true end.

(** The index [unique: true] on [name]: whether a document other than
    the one identified by [self] already has the name. *)
Definition name_taken (self : option string) (n : string)
    (coll : list document) : bool :=
  existsb (λ d, bool_decide (name d = n) && negb (bool_decide (Some (_id d) = self)))
          coll.

(** [new Userscript(obj).save()]: validation, the unique index, the
    insert.  [None]: the call rejects, and nothing is stored. *)
Definition create (id : string) (now : Z) (o : paths)
    (coll : list document) : option (document * list document) :=
  let o := cast o in
  if validate o then
    match p_name o, p_description o, p_content o with
    | Some n, Some de, Some co =>
        if name_taken None n coll then None
        else
          let d := {| _id := id; name := n; description := de; content := co;
                      createdAt := now; updatedAt := now |} in
          Some (d, app coll [d])
    | _, _, _ => None
    end
  else None.

Definition apply_update (u : paths) (d : document) : document :=
  {| _id := _id d;
     name := default (name d) (p_name u);
     description := default (description d) (p_description u);
     content := default (content d) (p_content u);
     createdAt := createdAt d;
     updatedAt := updatedAt d |}.

Fixpoint update_first (id : string) (u : paths) (coll : list document)
  : list document :=
  match coll with
  | [] => []
  | d :: rest =>
      if bool_decide (_id d = id) then apply_update u d :: rest
      else d :: update_first id u rest
  end.

(** [Userscript.findById(id)] *)
Definition findById (id : string) (coll : list document) : option document :=
  List.find (λ d, bool_decide (_id d = id)) coll.

(** [Userscript.findByIdAndUpdate(id, u, { new: true, runValidators: true })]:
    [None] when the call rejects (a validator or the unique index), else
    the updated document, if there is one with that identifier, and the
    collection. *)
Definition findByIdAndUpdate (id : string) (u : paths)
    (coll : list document) : option (option document * list document) :=
  let u := cast u in
  if validate_update u then
    match findById id coll with
    | None => Some (None, coll)
    | Some d =>
        if from_option (λ n, name_taken (Some id) n coll) false (p_name u)
        then None
        else Some (Some (apply_update u d), update_first id u coll)
    end
  else None.

Fixpoint delete_first (id : string) (coll : list document) : list document :=
  match coll with
  | [] => []
  | d :: rest =>
      if bool_decide (_id d = id) then rest else d :: delete_first id rest
  end.

(** [Userscript.findByIdAndDelete(id)] *)
Definition findByIdAndDelete (id : string) (coll : list document)
  : option document * list document :=
  (findById id coll, delete_first id coll).

End Userscript.

(** ** Scripts and [vm.runInContext]

    A script is a program over the properties of its global object, the
    contextified sandbox.  The fragment of JavaScript covered has
    literals, reads of global variables, assignments to them, [throw],
    sequencing, [while], and the statement
    [Promise.resolve().then(() => { body })], which schedules [body] as
    a job of the microtask queue; it has no other functions and no
    property access.  The sandbox is a plain object, with no properties
    but its own enumerable ones.

    A fresh context resolves some names that the sandbox does not
    define: the built-in globals ([NaN], [globalThis], [Object], ...)
    and the properties the sandbox inherits from [Object.prototype]
    ([constructor], [toString], ...).  These are the [predefined]
    names: those of [standard_names], and whatever further names the
    engine of the host defines.  What a script reads from such a name,
    and what an assignment to it does, is not modelled: a run that
    reaches one ends as [Beyond].  Every other name is looked up among,
    and assigned to, the own properties of the sandbox.

    Execution is small-step; every step takes one unit of time, and the
    watchdog of the [timeout] option stops the run when the units it was
    given are used up.  The watchdog covers the run of the script
    itself.  The jobs the script scheduled are run by the host after
    [vm.runInContext] has returned, the context sharing the microtask
    queue of the host: no budget applies to them. *)

Module Vm.

(** The global properties of the language and the properties of
    [Object.prototype]. *)
Definition standard_names : list string :=
  [ "globalThis"; "Infinity"; "NaN"; "undefined"; "eval"; "isFinite";
    "isNaN"; "parseFloat"; "parseInt"; "decodeURI"; "decodeURIComponent";
    "encodeURI"; "encodeURIComponent"; "escape"; "unescape"; "Array";
    "ArrayBuffer"; "BigInt"; "BigInt64Array"; "BigUint64Array"; "Boolean";
    "DataView"; "Date"; "Error"; "EvalError"; "Float16Array";
    "Float32Array"; "Float64Array"; "Function"; "Int8Array"; "Int16Array";
    "Int32Array"; "Iterator"; "Map"; "Number"; "Object"; "Promise";
    "Proxy"; "RangeError"; "ReferenceError"; "RegExp"; "Set";
    "SharedArrayBuffer"; "String"; "Symbol"; "SyntaxError"; "TypeError";
    "Uint8Array"; "Uint8ClampedArray"; "Uint16Array"; "Uint32Array";
    "URIError"; "WeakMap"; "WeakSet"; "WeakRef"; "FinalizationRegistry";
    "AggregateError"; "SuppressedError"; "DisposableStack";
    "AsyncDisposableStack"; "Atomics"; "JSON"; "Math"; "Reflect"; "Intl";
    "Temporal"; "WebAssembly"; "console"; "constructor"; "hasOwnProperty";
    "isPrototypeOf"; "propertyIsEnumerable"; "toLocaleString"; "toString";
    "valueOf"; "__proto__"; "__defineGetter__"; "__defineSetter__";
    "__lookupGetter__"; "__lookupSetter__" ].

Inductive lit :=
| LUndef
| LNull
| LBool (b : bool)
| LNum (z : Z)
| LStr (s : string).

Definition lit_value (c : lit) : value :=
  match c with
  | LUndef => VUndef
  | LNull => VNull
  | LBool b => VBool b
  | LNum z => VNum z
  | LStr s => VStr s
  end.

Inductive expr :=
| ELit (c : lit)
| EVar (x : string).

Inductive stmt :=
| SEmpty
| SExpr (e : expr)
| SAssign (x : string) (e : expr)
| SThrow (e : expr)
| SSeq (s1 s2 : stmt)
| SWhile (e : expr) (body : stmt)
| SThen (body : stmt).

(** Whether a script schedules no job. *)
Fixpoint synchronous (s : stmt) : bool :=
  match s with
  | SEmpty | SExpr _ | SAssign _ _ | SThrow _ => true
  | SSeq s1 s2 => synchronous s1 && synchronous s2
  | SWhile _ body => synchronous body
  | SThen _ => false
  end.

(** Work left to do: a statement, or the test of a loop already
    entered. *)
Inductive item :=
| KStmt (s : stmt)
| KLoop (e : expr) (body : stmt).

Definition item_synchronous (i : item) : bool :=
  match i with
  | KStmt s => synchronous s
  | KLoop _ body => synchronous body
  end.

(** [completion] is the completion value so far, [None] when empty;
    [later] are the jobs scheduled so far, in the order of the queue. *)
Record config := {
  todo : list item;
  completion : option value;
  globals : obj;
  later : list stmt
}.

(** What a script throws: the value of a [throw] statement, or the
    [ReferenceError] of a read of an undefined name. *)
Inductive exn :=
| Thrown (v : value)
| ReferenceError (x : string).

(** How a run ends, with the global object and the jobs it leaves. *)
Inductive final :=
| Done (v : value) (g : obj) (jobs : list stmt)
| Threw (e : exn) (g : obj) (jobs : list stmt)
| TimedOut (g : obj) (jobs : list stmt)
| Beyond.

Inductive answer :=
| Value (v : value)
| Raise (e : exn)
| Predefined.

(** The value of an expression.  A name that is not predefined is read
    from the own properties of the global object, and the read of a name
    that object does not have is a [ReferenceError]. *)
Definition eval (predefined : string → bool) (e : expr) (g : obj) : answer :=
  match e with
  | ELit c => Value (lit_value c)
  | EVar x =>
      if predefined x then Predefined
      else match g !! x with
           | Some v => Value v
           | None => Raise (ReferenceError x)
           end
  end.

(** One step.  In [Promise.resolve().then(...)] the name [Promise] is
    the built-in one unless the sandbox has a property of that name.
    The value of the statement is the promise [then] returns, which is
    not a value of the model: the completion value is left as it was,
    and plays no part in what follows, since a run that leaves a job is
    never taken for a run that returned. *)
Definition step (predefined : string → bool) (c : config) : config + final :=
  let go k v g :=
    inl {| todo := k; completion := v; globals := g; later := later c |} in
  match todo c with
  | [] => inr (Done (default VUndef (completion c)) (globals c) (later c))
  | KStmt SEmpty :: k => go k (completion c) (globals c)
  | KStmt (SExpr e) :: k =>
      match eval predefined e (globals c) with
      | Value v => go k (Some v) (globals c)
      | Raise exn => inr (Threw exn (globals c) (later c))
      | Predefined => inr Beyond
      end
  | KStmt (SAssign x e) :: k =>
      if predefined x then inr Beyond
      else
        match eval predefined e (globals c) with
        | Value v => go k (Some v) (<[x := v]> (globals c))
        | Raise exn => inr (Threw exn (globals c) (later c))
        | Predefined => inr Beyond
        end
  | KStmt (SThrow e) :: k =>
      match eval predefined e (globals c) with
      | Value v => inr (Threw (Thrown v) (globals c) (later c))
      | Raise exn => inr (Threw exn (globals c) (later c))
      | Predefined => inr Beyond
      end
  | KStmt (SSeq s1 s2) :: k =>
      go (KStmt s1 :: KStmt s2 :: k) (completion c) (globals c)
  | KStmt (SWhile e body) :: k =>
      go (KLoop e body :: k) (Some VUndef) (globals c)
  | KStmt (SThen body) :: k =>
      match globals c !! "Promise" with
      | Some _ => inr Beyond
      | None =>
          inl {| todo := k; completion := completion c; globals := globals c;
                 later := app (later c) [body] |}
      end
  | KLoop e body :: k =>
      match eval predefined e (globals c) with
      | Value v =>
          go (if truthy v then KStmt body :: KLoop e body :: k else k)
             (completion c) (globals c)
      | Raise exn => inr (Threw exn (globals c) (later c))
      | Predefined => inr Beyond
      end
  end.

(** A run under the watchdog: [budget] steps are allowed. *)
Fixpoint run (predefined : string → bool) (budget : nat) (c : config) : final :=
  match step predefined c with
  | inr f => f
  | inl c' =>
      match budget with
      | O => TimedOut (globals c) (later c)
      | S n => run predefined n c'
      end
  end.


(** The jobs a run leaves behind. *)
Definition final_jobs (f : final) : list stmt :=
  match f with
  | Done _ _ jobs | Threw _ _ jobs | TimedOut _ jobs => jobs
  | Beyond => []
  end.

Definition start (s : stmt) (g : obj) : config :=
  {| todo := [KStmt s]; completion := None; globals := g; later := [] |}.

(** [vm.runInContext(code, sandbox, { timeout })] on the contextified
    object [g]; [steps_per_ms] is the speed of the host. *)
Definition runInContext (predefined : string → bool) (steps_per_ms : nat)
    (code : stmt) (g : obj) (timeout : N) : final :=
  run predefined (N.to_nat timeout * steps_per_ms) (start code g).

End Vm.

(** ** ScriptService ([src/services/scriptService.js]) *)

Module ScriptService.
Import Userscript.

(** What the host of the scripts provides: the import [sanitizeScript]
    of [../utils/helpers], [None] when it is [undefined]; the parser of
    the engine ([None]: a [SyntaxError]); the speed of the engine; the
    names the engine predefines in a fresh context beside the standard
    ones. *)
Record host := {
  sanitizeScript : option (paths → paths);
  parse : string → option Vm.stmt;
  steps_per_ms : nat;
  engine_names : string → bool
}.

(** The names a fresh context resolves by itself. *)
Definition predefined (H : host) (x : string) : bool :=
  bool_decide (x ∈ Vm.standard_names) || engine_names H x.

Record world := {
  w_heap : heap;
  w_scripts : list document;
  w_next_id : nat
}.

Definition with_heap (w : world) (h : heap) : world :=
  {| w_heap := h; w_scripts := w_scripts w; w_next_id := w_next_id w |}.

Definition with_scripts (w : world) (c : list document) : world :=
  {| w_heap := w_heap w; w_scripts := c; w_next_id := w_next_id w |}.

Definition getScripts (w : world) : result (list document) * world :=
  (Ok (w_scripts w), w).

Definition getScriptById (id : string) (w : world) : result document * world :=
  match findById id (w_scripts w) with
  | Some script => (Ok script, w)
  | None => (Err (InvalidScriptError ("Error fetching userscript (ID: " ++ id ++ ")")), w)
  end.

(** The call of [sanitizeScript] is the first statement of the [try]
    block: when the import is [undefined] it throws, and the [catch]
    block turns that into the error of a failed create. *)
Definition createScript (H : host) (now : Z) (scriptData : paths) (w : world)
  : result document * world :=
  let failed := (Err (InvalidScriptError "Error creating userscript"), w) in
  match sanitizeScript H with
  | None => failed
  | Some sanitize =>
      let sanitizedScriptData := sanitize scriptData in
      match create (pretty (w_next_id w)) now sanitizedScriptData
              (w_scripts w) with
      | Some (newScript, c) =>
          (Ok newScript,
           {| w_heap := w_heap w; w_scripts := c; w_next_id := S (w_next_id w) |})
      | None => failed
      end
  end.

Definition updateScript (H : host) (id : string) (updates : paths) (w : world)
  : result unit * world :=
  let failed :=
    (Err (InvalidScriptError ("Error updating userscript (ID: " ++ id ++ ")")), w) in
  match sanitizeScript H with
  | None => failed
  | Some sanitize =>
      let sanitizedUpdates := sanitize updates in
      match findByIdAndUpdate id sanitizedUpdates (w_scripts w) with
      | Some (Some updatedScript, c) => (Ok tt, with_scripts w c)
      | Some (None, _) => failed
      | None => failed
      end
  end.

Definition deleteScript (id : string) (w : world) : result unit * world :=
  match findByIdAndDelete id (w_scripts w) with
  | (Some deletedScript, c) => (Ok tt, with_scripts w c)
  | (None, _) =>
      (Err (InvalidScriptError ("Error deleting userscript (ID: " ++ id ++ ")")), w)
  end.

(** How far a call of [executeInSandbox] or [executeScript] gets.
    [Settled]: the promise it returned is fulfilled with a value or
    rejected with an error.  [Pending]: the script has left jobs in the
    microtask queue, and they are run, under no budget, before the call
    can settle; what it settles to once they have run is not modelled.
    [Unmodelled]: the run is beyond the fragment of [Vm]. *)
Inductive call :=
| Settled (r : result value) (w : world)
| Pending (jobs : list Vm.stmt) (w : world)
| Unmodelled.

(** What a settled call returned or threw. *)
Definition reported (c : call) : option (result value) :=
  match c with
  | Settled r _ => Some r
  | _ => None
  end.

(** The state a call leaves, [w] being the state it started in. *)
Definition state_after (w : world) (c : call) : world :=
  match c with
  | Settled _ w' | Pending _ w' => w'
  | Unmodelled => w
  end.

(** A call that would return or throw [r], with [jobs] in the queue. *)
Definition after (jobs : list Vm.stmt) (r : result value) (w : world) : call :=
  match jobs with
  | [] => Settled r w
  | _ :: _ => Pending jobs w
  end.

(** [vm.runInContext(scriptContent, sandbox, { timeout: 5000 })], the
    [await] of its value and the [catch] block around them, on the
    sandbox at [sandbox]: what the script leaves in its global object
    is written back to that heap object, also when the run fails. *)
Definition run_in (H : host) (scriptContent : string) (sandbox : loc)
    (w : world) : call :=
  let failed := Err (ScriptExecutionError "Error executing script in sandbox") in
  match parse H scriptContent with
  | None => Settled failed w
  | Some code =>
      let back g := with_heap w (<[sandbox := g]> (w_heap w)) in
      match Vm.runInContext (predefined H) (steps_per_ms H) code
              (props (w_heap w) sandbox) 5000%N with
      | Vm.Done result g jobs => after jobs (Ok result) (back g)
      | Vm.Threw _ g jobs => after jobs failed (back g)
      | Vm.TimedOut g jobs => after jobs failed (back g)
      | Vm.Beyond => Unmodelled
      end
  end.


(** [executeInSandbox(scriptContent, context)].  [vm.createContext]
    contextifies the object it is given and returns that same object:
    the script's global object is the heap object [context] refers to.
    Its parameter has the default value [{}], so that for an
    [undefined] context the sandbox is a new, empty object.  Any other
    [context] that is not an object makes [vm.createContext] throw. *)
Definition executeInSandbox (H : host) (scriptContent : string)
    (context : value) (w : world) : call :=
  match context with
  | VRef sandbox => run_in H scriptContent sandbox w
  | VUndef =>
      let (sandbox, h) := alloc (w_heap w) ∅ in
      run_in H scriptContent sandbox (with_heap w h)
  | _ => Settled (Err (ScriptExecutionError "Error executing script in sandbox")) w
  end.

Definition executeScript (H : host) (id : string) (context : value)
    (w : world) : call :=
  let failed :=
    Err (ScriptExecutionError ("Error executing userscript (ID: " ++ id ++ ")")) in
  match getScriptById id w with
  | (Ok script, w1) =>
      match executeInSandbox H (content script) context w1 with
      | Settled (Ok result) w2 => Settled (Ok result) w2
      | Settled (Err _) w2 => Settled failed w2
      | Pending jobs w2 => Pending jobs w2
      | Unmodelled => Unmodelled
      end
  | (Err _, w1) => Settled failed w1
  end.

End ScriptService.

(** ** Sequences of service calls *)

Module ProxyRun.
Import ProxyConfig ProxyService.

(** The helpers and environment [forwardProxyRequest] depends on. *)
Record host := {
  environment : env;
  makeHttpRequest : option (http_call → heap → option (value * heap));
  transformRequestResponse : option (value → heap → option (value * heap));
  engine : string → option (string → bool);
  sort_desc : list document → list document
}.

Inductive op :=
| GetProxyConfig
| UpdateProxyConfig (now : Z) (config : paths)
| GetProxyTraffic (f : filters)
| ModifyProxyRequest (requestData : value)
| ModifyProxyResponse (responseData : value)
| InjectCustomResponse (responseData : value)
| ForwardProxyRequest (now : Z) (modifiedRequest : value)
| LogProxyTraffic (now : Z) (request response : value).

Definition is_update (o : op) : bool :=
  match o with
  | UpdateProxyConfig _ _ => true
  | _ => false
  end.

(** The state a call leaves behind. *)
Definition apply (H : host) (o : op) (w : world) : world :=
  match o with
  | GetProxyConfig => snd (getProxyConfig w)
  | UpdateProxyConfig now config => snd (updateProxyConfig now config w)
  | GetProxyTraffic f => snd (getProxyTraffic (engine H) (sort_desc H) f w)
  | ModifyProxyRequest d => snd (modifyProxyRequest d w)
  | ModifyProxyResponse d => snd (modifyProxyResponse d w)
  | InjectCustomResponse d => snd (injectCustomResponse d w)
  | ForwardProxyRequest now r =>
      snd (forwardProxyRequest (environment H) (makeHttpRequest H)
             (transformRequestResponse H) now r w)
  | LogProxyTraffic now rq rs => snd (logProxyTraffic now rq rs w)
  end.

(** The states of a deployment: it starts with an empty collection;
    between calls, the callers build and change objects of the heap. *)
Inductive reachable (H : host) : world → Prop :=
| reach_start h :
    reachable H {| w_heap := h; w_configs := []; w_next_id := 0; w_http := [] |}
| reach_caller w h :
    reachable H w → reachable H (with_heap w h)
| reach_call w o :
    reachable H w → reachable H (apply H o w).

End ProxyRun.

Module ScriptRun.
Import Userscript ScriptService.

Inductive op :=
| GetScripts
| GetScriptById (id : string)
| CreateScript (now : Z) (scriptData : paths)
| UpdateScript (id : string) (updates : paths)
| DeleteScript (id : string)
| ExecuteScript (id : string) (context : value).

(** The state a call leaves behind.  What a run beyond the fragment of
    [Vm] does to the heap, and what the jobs a script left do to it, is
    among the changes [reach_caller] allows for. *)
Definition apply (H : host) (o : op) (w : world) : world :=
  match o with
  | GetScripts => snd (getScripts w)
  | GetScriptById id => snd (getScriptById id w)
  | CreateScript now d => snd (createScript H now d w)
  | UpdateScript id u => snd (updateScript H id u w)
  | DeleteScript id => snd (deleteScript id w)
  | ExecuteScript id c => state_after w (executeScript H id c w)
  end.

Inductive reachable (H : host) : world → Prop :=
| reach_start h :
    reachable H {| w_heap := h; w_scripts := []; w_next_id := 0 |}
| reach_caller w h :
    reachable H w → reachable H (with_heap w h)
| reach_call w o :
    reachable H w → reachable H (apply H o w).

(** The registry invariant: names are unique, and so are identifiers,
    all drawn from the counter. *)
Definition well_formed (w : world) : Prop :=
  NoDup (name <$> w_scripts w) ∧
  NoDup (_id <$> w_scripts w) ∧
  ∀ d, d ∈ w_scripts w → ∃ k, (k < w_next_id w)%nat ∧ _id d = pretty k.

(** A script that never finishes, however long it is left to run. *)
Definition never_finishes (predefined : string → bool) (code : Vm.stmt)
    (g : obj) : Prop :=
  ∀ budget, ∃ g' jobs,
    Vm.run predefined budget (Vm.start code g) = Vm.TimedOut g' jobs.

End ScriptRun.

(** ** The traffic query as the specification words it *)

Module QuerySpec.
Import ProxyConfig ProxyService.

Fixpoint prefix_ci (p s : string) : bool :=
  match p, s with
  | EmptyString, _ => true
  | String _ _, EmptyString => false
  | String a p', String b s' =>
      bool_decide (RegExp.lower a = RegExp.lower b) && prefix_ci p' s'
  end.

(** Case-insensitive substring. *)
Fixpoint contains_ci (p s : string) : bool :=
  prefix_ci p s ||
  match s with
  | EmptyString => false
  | String _ s' => contains_ci p s'
  end.

Definition spec_matches (f : filters) (d : document) : bool :=
  (startDate f <=? createdAt d)%Z && (createdAt d <=? endDate f)%Z
  && match given (f_targetUrl f) with
     | Some p => from_option (contains_ci p) false (targetUrl d)
     | None => true
     end
  && match given (f_method f) with
     | Some m => bool_decide (method d = Some m)
     | None => true
     end.

(** Insertion into a list ordered newest first.  With [after_equals] the
    document goes behind those of the same timestamp, else in front of
    them. *)
Fixpoint insert_desc (after_equals : bool) (x : document)
    (l : list document) : list document :=
  match l with
  | [] => [x]
  | y :: l' =>
      if (if after_equals then (createdAt y <? createdAt x)%Z
          else (createdAt y <=? createdAt x)%Z)
      then x :: l
      else y :: insert_desc after_equals x l'
  end.

(** Newest first, documents of one timestamp in insertion order. *)
Definition newest_first_stable (l : list document) : list document :=
  foldr (insert_desc false) [] l.

(** Newest first, documents of one timestamp in reverse insertion
    order: another order a store may return for the same sort key. *)
Definition newest_first_reversed_ties (l : list document) : list document :=
  foldr (insert_desc true) [] l.

Definition spec_query (f : filters) (coll : list document) : list document :=
  take (Z.to_nat (limit f))
    (drop (Z.to_nat ((page f - 1) * limit f))
       (newest_first_stable (List.filter (spec_matches f) coll))).

(** What a store's descending sort on [createdAt] guarantees. *)
Definition newer_or_equal (a b : document) : Prop :=
  (createdAt b <= createdAt a)%Z.

Definition sorts_newest_first (sort : list document → list document) : Prop :=
  ∀ l, Permutation (sort l) l ∧ Sorted newer_or_equal (sort l).

End QuerySpec.

(** ** Concrete hosts, heaps and stores used in the examples *)

Module Examples.
Import Vm.

(** A parser for the five script texts of the examples. *)
Definition parse_example (text : string) : option stmt :=
  if bool_decide (text = "seen = true")
  then Some (SAssign "seen" (ELit (LBool true)))
  else if bool_decide (text = "while (true) {}")
  then Some (SWhile (ELit (LBool true)) SEmpty)
  else if bool_decide (text = "throw 1")
  then Some (SThrow (ELit (LNum 1)))
  else if bool_decide (text = "value")
  then Some (SExpr (EVar "value"))
  else if bool_decide
            (text = "Promise.resolve().then(() => { while (true) {} })")
  then Some (SThen (SWhile (ELit (LBool true)) SEmpty))
  else None.

(** The host of the repository: [helpers.js] as it is, which leaves
    [sanitizeScript] undefined. *)
Definition repository_host : ScriptService.host :=
  {| ScriptService.sanitizeScript := Helpers.sanitizeScript;
     ScriptService.parse := parse_example;
     ScriptService.steps_per_ms := 1;
     ScriptService.engine_names := λ _, false |}.

(** A host whose helpers define [sanitizeScript], as the identity. *)
Definition script_host : ScriptService.host :=
  {| ScriptService.sanitizeScript := Some (λ o, o);
     ScriptService.parse := parse_example;
     ScriptService.steps_per_ms := 1;
     ScriptService.engine_names := λ _, false |}.

(** One stored script, with identifier [1], and a caller holding the
    context object [{ value: 41 }] at location [0]. *)
Definition registry_with (text : string) : ScriptService.world :=
  {| ScriptService.w_heap := {[ 0%nat := {[ "value" := VNum 41 ]} ]};
     ScriptService.w_scripts :=
       [ {| Userscript._id := "1"; Userscript.name := "job";
            Userscript.description := "a job"; Userscript.content := text;
            Userscript.createdAt := 0; Userscript.updatedAt := 0 |} ];
     ScriptService.w_next_id := 2 |}.

Definition job : Userscript.paths :=
  {| Userscript.p_name := Some "job";
     Userscript.p_description := Some "another job";
     Userscript.p_content := Some "value" |}.

(** A create under a name outside the allowed characters. *)
Definition misnamed_job : Userscript.paths :=
  {| Userscript.p_name := Some "not a name!";
     Userscript.p_description := Some "another job";
     Userscript.p_content := Some "value" |}.

(** The kinds of failed create the specification names. *)
Inductive create_failure :=
| DuplicateName
| InvalidInput.


Definition proxy_world (h : heap) (c : list ProxyConfig.document)
  : ProxyService.world :=
  {| ProxyService.w_heap := h; ProxyService.w_configs := c;
     ProxyService.w_next_id := 0; ProxyService.w_http := [] |}.

(** [{ statusCode: 204, headers: {} }] at location [0]. *)
Definition heap_no_body : heap :=
  <[ 1%nat := ∅ ]>
  {[ 0%nat := <[ "statusCode" := VNum 204 ]> {[ "headers" := VRef 1 ]} ]}.

(** [{ statusCode: 200, headers: { "Content-Type": "application/json" },
       body: { data: "bar" } }] at location [0]. *)
Definition heap_response : heap :=
  <[ 2%nat := {[ "data" := VStr "bar" ]} ]>
  (<[ 1%nat := {[ "Content-Type" := VStr "application/json" ]} ]>
  {[ 0%nat := <[ "statusCode" := VNum 200 ]>
               (<[ "headers" := VRef 1 ]> {[ "body" := VRef 2 ]}) ]}).

(** [{ method: "POST", url: "/api",
       headers: { "Content-Type": "application/json" },
       body: { data: { k: "foo" } } }] at location [0]; the nested object
    [{ k: "foo" }] is at location [3]. *)
Definition heap_nested : heap :=
  <[ 3%nat := {[ "k" := VStr "foo" ]} ]>
  (<[ 2%nat := {[ "data" := VRef 3 ]} ]>
  (<[ 1%nat := {[ "Content-Type" := VStr "application/json" ]} ]>
  {[ 0%nat := <[ "method" := VStr "POST" ]>
               (<[ "url" := VStr "/api" ]>
               (<[ "headers" := VRef 1 ]> {[ "body" := VRef 2 ]})) ]})).

(** [v.k1.k2...] *)
Definition get_path (h : heap) (v : value) (path : list string) : value :=
  foldl (get h) v path.

Definition traffic_doc (id : string) (at_ : Z) (url : option string)
  : ProxyConfig.document :=
  {| ProxyConfig._id := id; ProxyConfig.targetHostname := None;
     ProxyConfig.targetPort := None;
     ProxyConfig.requestModifications := None;
     ProxyConfig.responseModifications := None;
     ProxyConfig.createdAt := at_; ProxyConfig.updatedAt := at_;
     ProxyConfig.targetUrl := url; ProxyConfig.method := Some "GET" |}.

Definition query (pattern : option string) : ProxyService.filters :=
  {| ProxyService.startDate := 0; ProxyService.endDate := 100;
     ProxyService.f_targetUrl := pattern; ProxyService.f_method := None;
     ProxyService.page := 1; ProxyService.limit := 10 |}.

Definition no_engine (pattern : string) : option (string → bool) := None.

(** [{ targetHostname: "bad hostname!", targetPort: 80 }] *)
Definition bad_config : ProxyConfig.paths :=
  {| ProxyConfig.p_targetHostname := Some "bad hostname!";
     ProxyConfig.p_targetPort := Some 80%Z;
     ProxyConfig.p_requestModifications := None;
     ProxyConfig.p_responseModifications := None |}.

(** [{ targetHostname: "bad hostname", targetPort: 80 }] *)
Definition spaced_config : ProxyConfig.paths :=
  {| ProxyConfig.p_targetHostname := Some "bad hostname";
     ProxyConfig.p_targetPort := Some 80%Z;
     ProxyConfig.p_requestModifications := None;
     ProxyConfig.p_responseModifications := None |}.

Definition good_config : ProxyConfig.paths :=
  {| ProxyConfig.p_targetHostname := Some "example.com";
     ProxyConfig.p_targetPort := Some 80%Z;
     ProxyConfig.p_requestModifications := None;
     ProxyConfig.p_responseModifications := None |}.

Definition proxy_host : ProxyRun.host :=
  {| ProxyRun.environment :=
       {| ProxyService.PROXY_TARGET_HOSTNAME := Some "example.com";
          ProxyService.PROXY_TARGET_PORT := Some "80" |};
     ProxyRun.makeHttpRequest := Helpers.makeHttpRequest;
     ProxyRun.transformRequestResponse := Helpers.transformRequestResponse;
     ProxyRun.engine := no_engine;
     ProxyRun.sort_desc := QuerySpec.newest_first_stable |}.

End Examples.

(** ** The proxy middleware ([src/middleware/proxyMiddleware.js]) *)

Module ProxyMiddleware.
Import ProxyConfig ProxyService.

(** What the [catch] block hands to [next]: a plain [Error], the
    [TypeError] of a property read on [null] or [undefined], or an error
    of the service. *)
Inductive thrown :=
| PlainError (message : string)
| PropertyOfNullish
| ServiceError (e : error).

(** How the middleware ends: [res.status], [res.setHeader] for every
    header and [res.send], or [next(err)]. *)
Inductive handled :=
| Sent (statusCode : value) (headers : obj) (body : value)
| Next (err : thrown).

(** [proxyMiddleware(req, res, next)].  [now1] is the time of the log
    entry [forwardProxyRequest] writes, [now2] that of the middleware's
    own. *)
Definition proxyMiddleware (e : env)
    (makeHttpRequest : option (http_call → heap → option (value * heap)))
    (transformRequestResponse : option (value → heap → option (value * heap)))
    (now1 now2 : Z) (req : value) (w : world) : handled * world :=
  if nullish req then (Next PropertyOfNullish, w)
  else
    let h := w_heap w in
    let method := get h req "method" in
    let url := get h req "url" in
    let headers := get h req "headers" in
    let body := get h req "body" in
    if negb (truthy method) || negb (truthy url)
       || negb (bool_decide (typeof headers = "object"))
    then (Next (PlainError "Invalid request data"), w)
    else
      let (l, h1) :=
        alloc h (<["method" := method]>
                 (<["url" := url]>
                 (<["headers" := headers]>
                 {["body" := if truthy body then body else VNull]}))) in
      match modifyProxyRequest (VRef l) (with_heap w h1) with
      | (Err err, w2) => (Next (ServiceError err), w2)
      | (Ok modifiedRequest, w2) =>
          match forwardProxyRequest e makeHttpRequest transformRequestResponse
                  now1 modifiedRequest w2 with
          | (Err err, w3) => (Next (ServiceError err), w3)
          | (Ok response, w3) =>
              if nullish response then (Next PropertyOfNullish, w3)
              else
                let h3 := w_heap w3 in
                let (l', h4) :=
                  alloc h3 (<["statusCode" := get h3 response "statusCode"]>
                            (<["headers" := get h3 response "headers"]>
                            {["body" := get h3 response "body"]})) in
                match modifyProxyResponse (VRef l') (with_heap w3 h4) with
                | (Err err, w5) => (Next (ServiceError err), w5)
                | (Ok modifiedResponse, w5) =>
                    match logProxyTraffic now2 modifiedRequest modifiedResponse
                            w5 with
                    | (Err err, w6) => (Next (ServiceError err), w6)
                    | (Ok _, w6) =>
                        let h6 := w_heap w6 in
                        (Sent (get h6 modifiedResponse "statusCode")
                           (own_props h6 (get h6 modifiedResponse "headers"))
                           (get h6 modifiedResponse "body"), w6)
                    end
                end
          end
      end.

End ProxyMiddleware.

(** ** The application ([app.js])

    [app.use('/api/proxy', proxyMiddleware, proxyRoutes)], followed by
    [app.use(errorHandler)]; the handlers registered before these (the
    body parsers, [cors], [helmet]) pass a [PUT] request on.  Express
    runs the handlers of a request in the order they were registered.  A handler either answers the
    request, which ends the chain, or calls [next()], which hands the
    request to the handler after it, or calls [next(err)], which skips
    every handler that is not an error handler. *)

Module App.
Import ProxyConfig ProxyService ProxyRoutes ProxyMiddleware.

Inductive handler_result (R E : Type) :=
| Answer (r : R)
| NextHandler
| NextError (e : E).
Arguments Answer {R E} r.
Arguments NextHandler {R E}.
Arguments NextError {R E} e.

(** How a request ends: with the answer of a handler, with an error the
    error handler is given, or past the last handler. *)
Inductive handled_by (R E : Type) :=
| Answered (r : R)
| ErrorHandler (e : E)
| Unhandled.
Arguments Answered {R E} r.
Arguments ErrorHandler {R E} e.
Arguments Unhandled {R E}.

Fixpoint dispatch {W R E : Type} (handlers : list (W → handler_result R E * W))
    (w : W) : handled_by R E * W :=
  match handlers with
  | [] => (Unhandled, w)
  | handler :: rest =>
      match handler w with
      | (Answer r, w') => (Answered r, w')
      | (NextHandler, w') => dispatch rest w'
      | (NextError e, w') => (ErrorHandler e, w')
      end
  end.

(** The answers to a request under [/api/proxy]: the response of the
    target, relayed by the middleware, or the reply of a route. *)
Inductive response :=
| Relayed (statusCode : value) (headers : obj) (body : value)
| Routed (r : reply).

(** [proxyMiddleware] as a handler: it never calls [next()]. *)
Definition middleware_handler (e : env)
    (makeHttpRequest : option (http_call → heap → option (value * heap)))
    (transformRequestResponse : option (value → heap → option (value * heap)))
    (now1 now2 : Z) (req : value) (w : world)
  : handler_result response thrown * world :=
  match proxyMiddleware e makeHttpRequest transformRequestResponse
          now1 now2 req w with
  | (Sent statusCode headers body, w') => (Answer (Relayed statusCode headers body), w')
  | (Next err, w') => (NextError err, w')
  end.

(** The route [PUT /config] of [proxyRoutes] as a handler. *)
Definition put_config_handler (now : Z) (body : paths) (w : world)
  : handler_result response thrown * world :=
  match put_config now body w with
  | (Failed err, w') => (NextError (ServiceError err), w')
  | (r, w') => (Answer (Routed r), w')
  end.

(** [PUT /api/proxy/config] on the application: [req] is the request
    object, [body] the schema paths of [req.body]. *)
Definition put_api_proxy_config (e : env)
    (makeHttpRequest : option (http_call → heap → option (value * heap)))
    (transformRequestResponse : option (value → heap → option (value * heap)))
    (now1 now2 now : Z) (req : value) (body : paths) (w : world)
  : handled_by response thrown * world :=
  dispatch
    [ middleware_handler e makeHttpRequest transformRequestResponse now1 now2 req;
      put_config_handler now body ] w.

End App.

(** ** Host names as dotted labels *)

Module Hostname.

(** [.l1.l2...] *)
Fixpoint dotted (labels : list string) : string :=
  match labels with
  | [] => EmptyString
  | l :: ls => "." ++ l ++ dotted ls
  end.

(** [l1.l2...] *)
Definition join_dots (labels : list string) : string :=
  match labels with
  | [] => EmptyString
  | l :: ls => l ++ dotted ls
  end.

(** A non-empty run of characters of [[a-zA-Z0-9-]]. *)
Definition label (l : string) : Prop :=
  l ≠ EmptyString ∧ Userscript.all_chars ProxyConfig.host_char l = true.

End Hostname.

(** ** Stored scripts that meet the schema *)

Module ScriptFacts.
Import Userscript.

(** What the validators of [userscriptSchema] ask of a document. *)
Definition meets_schema (d : document) : Prop :=
  name_validator (name d) = true ∧
  description d ≠ EmptyString ∧
  content d ≠ EmptyString.

(** A string of white space only. *)
Definition blank (s : string) : Prop := all_chars white_space s = true.

End ScriptFacts.

(** ** Further concrete inputs *)

Module MoreExamples.

(** [{ method: "POST", url: "/chat", headers: {}, body: "hi" }] at
    location [0]. *)
Definition heap_text_body : heap :=
  <[ 1%nat := ∅ ]>
  {[ 0%nat := <[ "method" := VStr "POST" ]>
               (<[ "url" := VStr "/chat" ]>
               (<[ "headers" := VRef 1 ]> {[ "body" := VStr "hi" ]})) ]}.

Definition empty_registry : ScriptService.world :=
  {| ScriptService.w_heap := ∅; ScriptService.w_scripts := [];
     ScriptService.w_next_id := 0 |}.

Definition padded_job : Userscript.paths :=
  {| Userscript.p_name := Some "  job ";
     Userscript.p_description := Some "another job";
     Userscript.p_content := Some "value" |}.


(** [{ method: "POST", url: "/chat", headers: {}, body: 5 }] at
    location [0]. *)
Definition heap_number_body : heap :=
  <[ 1%nat := ∅ ]>
  {[ 0%nat := <[ "method" := VStr "POST" ]>
               (<[ "url" := VStr "/chat" ]>
               (<[ "headers" := VRef 1 ]> {[ "body" := VNum 5 ]})) ]}.

(** The request object of [PUT /api/proxy/config] as the middleware
    finds it, at location [0]: [{ method: "PUT", url: "/config",
    headers: {}, body: {} }]. *)
Definition heap_put_request : heap :=
  <[ 2%nat := ∅ ]>
  (<[ 1%nat := ∅ ]>
  {[ 0%nat := <[ "method" := VStr "PUT" ]>
               (<[ "url" := VStr "/config" ]>
               (<[ "headers" := VRef 1 ]> {[ "body" := VRef 2 ]})) ]}).

Definition proxy_env : ProxyService.env :=
  {| ProxyService.PROXY_TARGET_HOSTNAME := Some "example.com";
     ProxyService.PROXY_TARGET_PORT := Some "80" |}.

Definition page_of (p l : Z) : ProxyService.filters :=
  {| ProxyService.startDate := 0; ProxyService.endDate := 100;
     ProxyService.f_targetUrl := None; ProxyService.f_method := None;
     ProxyService.page := p; ProxyService.limit := l |}.

End MoreExamples.

(** * Properties *)

(** ** The heap *)

Section HeapFacts.
Implicit Types (h : heap) (o : obj) (l : loc).

Lemma alloc_fresh h o : (alloc h o).1 ∉ dom h.
Proof. apply is_fresh. Qed.

Lemma alloc_lookup_new h o : (alloc h o).2 !! (alloc h o).1 = Some o.
Proof. apply lookup_insert_eq. Qed.

Lemma alloc_lookup_ne h o l : l ≠ (alloc h o).1 → (alloc h o).2 !! l = h !! l.
Proof. intros Hl. by apply lookup_insert_ne. Qed.

Lemma alloc_lookup_old h o l : l ∈ dom h → (alloc h o).2 !! l = h !! l.
Proof.
  intros Hl. apply alloc_lookup_ne. intros ->.
  by apply (alloc_fresh h o).
Qed.

(** A location that is new after an allocation was new before it, and
    is not the one just allocated. *)
Lemma alloc_fresh_after h o l :
  l ∉ dom (alloc h o).2 → l ≠ (alloc h o).1 ∧ l ∉ dom h.
Proof.
  unfold alloc; cbn [fst snd]. rewrite dom_insert_L.
  rewrite not_elem_of_union, not_elem_of_singleton. tauto.
Qed.

Lemma props_lookup h l o : h !! l = Some o → props h l = o.
Proof. unfold props. by intros ->. Qed.

End HeapFacts.

(** ** The message copy of [ProxyService] *)

Section CopyMessage.
Import ProxyService.

(** What the object literal of the three rewriting methods builds. *)
Lemma copy_message_inv (h : heap) (data v : value) (h' : heap) :
  copy_message h data = (v, h') →
  ∃ lo lh vb,
    v = VRef lo ∧ (lo ∉ dom h) ∧ (lh ∉ dom h) ∧ lo ≠ lh ∧
    (∀ l, l ∈ dom h → h' !! l = h !! l) ∧
    h' !! lh = Some (own_props h (get h data "headers")) ∧
    h' !! lo = Some (<["body" := vb]> (<["headers" := VRef lh]> (own_props h data))) ∧
    ((truthy (get h data "body") = false ∧ vb = VNull) ∨
     (truthy (get h data "body") = true ∧
      ∃ lb, vb = VRef lb ∧ (lb ∉ dom h) ∧ lb ≠ lo ∧ lb ≠ lh ∧
            h' !! lb = Some (own_props h (get h data "body")))).
Proof.
  unfold copy_message.
  set (oh := own_props h (get h data "headers")).
  pose proof (alloc_fresh h oh) as Hfh.
  pose proof (alloc_lookup_new h oh) as Hnh.
  pose proof (alloc_lookup_ne h oh) as Hoh.
  pose proof (alloc_fresh_after h oh) as Hah.
  destruct (alloc h oh) as [lh h1]; cbn [fst snd] in *.
  destruct (truthy (get h data "body")) eqn:Hb.
  - set (ob := own_props h (get h data "body")).
    pose proof (alloc_fresh h1 ob) as Hfb.
    pose proof (alloc_lookup_new h1 ob) as Hnb.
    pose proof (alloc_lookup_ne h1 ob) as Hob.
    pose proof (alloc_fresh_after h1 ob) as Hab.
    destruct (alloc h1 ob) as [lb h2]; cbn [fst snd] in *.
    match goal with |- context [alloc h2 ?o] => set (oo := o) end.
    pose proof (alloc_fresh h2 oo) as Hfo.
    pose proof (alloc_lookup_new h2 oo) as Hno.
    pose proof (alloc_lookup_ne h2 oo) as Hoo.
    destruct (alloc h2 oo) as [lo h3]; cbn [fst snd] in *.
    intros [= <- <-].
    destruct (Hab _ Hfo) as [Hlo_lb Hlo1].
    destruct (Hah _ Hlo1) as [Hlo_lh Hlo].
    destruct (Hah _ Hfb) as [Hlb_lh Hlb].
    exists lo, lh, (VRef lb). split_and!; try done.
    + intros l Hl.
      rewrite Hoo, Hob, Hoh; [done|intros ->; done..].
    + rewrite Hoo, Hob; [done|congruence..].
    + right. split; [done|]. exists lb. split_and!; try done; try congruence.
      rewrite Hoo; [done|congruence].
  - match goal with |- context [alloc h1 ?o] => set (oo := o) end.
    pose proof (alloc_fresh h1 oo) as Hfo.
    pose proof (alloc_lookup_new h1 oo) as Hno.
    pose proof (alloc_lookup_ne h1 oo) as Hoo.
    destruct (alloc h1 oo) as [lo h3]; cbn [fst snd] in *.
    intros [= <- <-].
    destruct (Hah _ Hfo) as [Hlo_lh Hlo].
    exists lo, lh, VNull. split_and!; try done.
    + intros l Hl. rewrite Hoo, Hoh; [done|intros ->; done..].
    + rewrite Hoo; [done|congruence].
    + by left.
Qed.

Lemma modify_valid (message : string) (data : value) (w : world) :
  invalid_data data = false →
  modify message data w =
    (Ok (copy_message (w_heap w) data).1,
     with_heap w (copy_message (w_heap w) data).2).
Proof.
  intros Hv. unfold modify. rewrite Hv.
  by destruct (copy_message (w_heap w) data).
Qed.

End CopyMessage.

Section Rewriting.
Import ProxyService Examples MoreExamples.

(** The fields of the object a rewriting method returns. *)
Lemma modify_result (message : string) (data : value) (w : world) :
  invalid_data data = false →
  let r := modify message data w in
  let h := w_heap w in
  let h' := w_heap r.2 in
  w_http r.2 = w_http w ∧ w_configs r.2 = w_configs w ∧
  (∀ l, l ∈ dom h → h' !! l = h !! l) ∧
  ∃ lo lh,
    r.1 = Ok (VRef lo) ∧ (lo ∉ dom h) ∧ (lh ∉ dom h) ∧ lo ≠ lh ∧
    (∀ k, k ≠ "headers" → k ≠ "body" → props h' lo !! k = own_props h data !! k) ∧
    props h' lo !! "headers" = Some (VRef lh) ∧
    props h' lh = own_props h (get h data "headers") ∧
    ((truthy (get h data "body") = false ∧ props h' lo !! "body" = Some VNull) ∨
     (truthy (get h data "body") = true ∧
      ∃ lb, props h' lo !! "body" = Some (VRef lb) ∧
            (lb ∉ dom h) ∧ lb ≠ lo ∧ lb ≠ lh ∧
            props h' lb = own_props h (get h data "body"))).
Proof.
  intros Hv. rewrite (modify_valid _ _ _ Hv). cbn [fst snd].
  destruct (copy_message (w_heap w) data) as [v h'] eqn:Hc.
  destruct (copy_message_inv _ _ _ _ Hc)
    as (lo & lh & vb & -> & Hlo & Hlh & Hne & Hold & Hh & Ho & Hbody).
  cbn [fst snd with_heap w_heap w_http w_configs].
  split_and!; try done.
  exists lo, lh. rewrite (props_lookup _ _ _ Ho), (props_lookup _ _ _ Hh).
  split_and!; try done.
  - intros k Hk1 Hk2. by rewrite !lookup_insert_ne.
  - rewrite lookup_insert_ne by done. apply lookup_insert_eq.
  - destruct Hbody as [[Hf ->]|(Ht & lb & -> & Hlb & Hb1 & Hb2 & Hb)].
    + left. split; [done|]. apply lookup_insert_eq.
    + right. split; [done|]. exists lb.
      rewrite (props_lookup _ _ _ Hb), lookup_insert_eq. done.
Qed.

(** C10, as stated, fails in its second half: a truthy body is not
    always carried over.  For the request
    [{ method: "POST", url: "/chat", headers: {}, body: 5 }] the body
    of the object returned is a new object with no property at all. *)
Lemma truthy_number_body_comes_back_empty :
  heap_number_body !! 0%nat ≫= lookup "body" = Some (VNum 5) ∧
  ∃ lo lb,
    (modifyProxyRequest (VRef 0) (proxy_world heap_number_body [])).1
      = Ok (VRef lo) ∧
    props (w_heap (modifyProxyRequest (VRef 0)
                     (proxy_world heap_number_body [])).2) lo !! "body"
      = Some (VRef lb) ∧
    w_heap (modifyProxyRequest (VRef 0) (proxy_world heap_number_body [])).2
      !! lb = Some ∅.
Proof.
  split; [vm_compute; reflexivity|].
  exists 4%nat, 3%nat. split_and!; vm_compute; reflexivity.
Qed.

(** C10, amended.  [modifyProxyRequest] and [modifyProxyResponse] accept
    any object.  When its [body] is absent or falsy ([undefined],
    [null], [NaN], [false], [0] or the empty string), the object
    returned has a [body] property, and it is [null].  When its [body]
    is truthy, the returned [body] is a new object: for a body that is
    an object it holds that object's own properties, for a string its
    characters under their indices, and for [true] or a number other
    than [0] it holds nothing. *)
Theorem modify_body_null_or_copy (l : loc) (o : obj) (w : world) :
  w_heap w !! l = Some o →
  let h := w_heap w in
  let rule (r : result value * world) :=
    ∃ lo o',
      r.1 = Ok (VRef lo) ∧ w_heap r.2 !! lo = Some o' ∧
      let copied (content : obj) :=
        ∃ lb, o' !! "body" = Some (VRef lb) ∧ (lb ∉ dom h) ∧
              w_heap r.2 !! lb = Some content in
      match default VUndef (o !! "body") with
      | VUndef | VNull | VNaN | VBool false | VNum 0 | VStr EmptyString =>
          o' !! "body" = Some VNull
      | VRef b => copied (default ∅ (h !! b))
      | VStr s => copied (list_to_map (imap (λ i c, (pretty i, VStr c)) (chars s)))
      | VBool true | VNum _ => copied ∅
      end in
  rule (modifyProxyRequest (VRef l) w) ∧ rule (modifyProxyResponse (VRef l) w).
Proof.
  intros Hl h rule.
  assert (∀ message, rule (modify message (VRef l) w)) as Hrule.
  { intros message. rewrite (modify_valid _ (VRef l)) by done. cbn [fst snd].
    destruct (copy_message (w_heap w) (VRef l)) as [v h'] eqn:Hc.
    destruct (copy_message_inv _ _ _ _ Hc)
      as (lo & lh & vb & -> & _ & _ & _ & _ & _ & Ho & Hbody).
    cbn [get] in Hbody. rewrite (props_lookup _ _ _ Hl) in Hbody.
    eexists lo, _. split; [done|]. split; [exact Ho|].
    rewrite lookup_insert_eq. cbn [with_heap w_heap]. fold h in Hbody.
    destruct (default VUndef (o !! "body")) as [| |[]|[|p|p]| |[|c s]|b];
      cbn [truthy own_props Z.eqb negb] in Hbody;
      try (destruct Hbody as [[_ ->]|[? _]]; done);
      destruct Hbody as [[? _]|(_ & lb & -> & Hlb & _ & _ & Hb)]; try done;
      by exists lb. }
  split; apply Hrule.
Qed.

Lemma modify_body_null_or_copy_witness :
  ∃ lo o' lb,
    (modifyProxyRequest (VRef 0) (proxy_world heap_response [])).1 = Ok (VRef lo) ∧
    w_heap (modifyProxyRequest (VRef 0) (proxy_world heap_response [])).2 !! lo
      = Some o' ∧
    o' !! "body" = Some (VRef lb) ∧
    w_heap (modifyProxyRequest (VRef 0) (proxy_world heap_response [])).2 !! lb
      = Some {[ "data" := VStr "bar" ]}.
Proof.
  destruct (modify_body_null_or_copy 0%nat
              (<[ "statusCode" := VNum 200 ]>
                 (<[ "headers" := VRef 1 ]> {[ "body" := VRef 2 ]}))
              (proxy_world heap_response []) eq_refl)
    as [(lo & o' & Hr & Ho & lb & Hb & _ & Hc) _].
  exists lo, o', lb. split; [exact Hr|]. split; [exact Ho|].
  split; [exact Hb|exact Hc].
Defined.

(** C4, as stated, fails: for the well-formed response
    [{ statusCode: 204, headers: {} }], [injectCustomResponse] returns
    another object, which has a [body] property the submitted one lacks,
    and nothing is added to the store: there is no traffic record, and
    so none tagged as injected. *)
Lemma inject_adds_body_and_records_nothing :
  props heap_no_body 0 !! "body" = None ∧
  (∃ lo, (injectCustomResponse (VRef 0) (proxy_world heap_no_body [])).1
           = Ok (VRef lo) ∧
         lo ≠ 0%nat ∧
         props (w_heap (injectCustomResponse (VRef 0)
                          (proxy_world heap_no_body [])).2) lo !! "body"
           = Some VNull) ∧
  w_configs (injectCustomResponse (VRef 0) (proxy_world heap_no_body [])).2 = [].
Proof.
  split; [reflexivity|]. split; [|reflexivity].
  eexists. split; [vm_compute; reflexivity|].
  split; [discriminate|vm_compute; reflexivity].
Qed.

(** C4, amended.  For every response object, [injectCustomResponse]
    returns a new object: the own properties of the submitted one, with
    [headers] replaced by a new object holding a copy of the submitted
    headers, and [body] replaced by a copy of the submitted body in a new
    object, or by [null] when the body is absent or falsy.  The call makes
    no request to the target, writes nothing to the store, and leaves the
    objects of the heap as they were. *)
Theorem inject_custom_response_copy (responseData : value) (w : world) :
  invalid_data responseData = false →
  let r := injectCustomResponse responseData w in
  let h := w_heap w in
  let h' := w_heap r.2 in
  w_http r.2 = w_http w ∧ w_configs r.2 = w_configs w ∧
  (∀ l, l ∈ dom h → h' !! l = h !! l) ∧
  ∃ lo lh,
    r.1 = Ok (VRef lo) ∧ (lo ∉ dom h) ∧ (lh ∉ dom h) ∧ lo ≠ lh ∧
    (∀ k, k ≠ "headers" → k ≠ "body" →
          props h' lo !! k = own_props h responseData !! k) ∧
    props h' lo !! "headers" = Some (VRef lh) ∧
    props h' lh = own_props h (get h responseData "headers") ∧
    ((truthy (get h responseData "body") = false ∧
      props h' lo !! "body" = Some VNull) ∨
     (truthy (get h responseData "body") = true ∧
      ∃ lb, props h' lo !! "body" = Some (VRef lb) ∧
            (lb ∉ dom h) ∧ lb ≠ lo ∧ lb ≠ lh ∧
            props h' lb = own_props h (get h responseData "body"))).
Proof. intros Hv. exact (modify_result _ _ _ Hv). Qed.

Lemma inject_custom_response_copy_witness :
  w_http (injectCustomResponse (VRef 0) (proxy_world heap_response [])).2 = [] ∧
  w_configs (injectCustomResponse (VRef 0) (proxy_world heap_response [])).2 = [] ∧
  ∃ lo, (injectCustomResponse (VRef 0) (proxy_world heap_response [])).1
          = Ok (VRef lo) ∧
        props (w_heap (injectCustomResponse (VRef 0)
                         (proxy_world heap_response [])).2) lo !! "statusCode"
          = Some (VNum 200).
Proof.
  destruct (inject_custom_response_copy (VRef 0) (proxy_world heap_response [])
              eq_refl) as (Hh & Hc & _ & lo & lh & Hr & _ & _ & _ & Hk & _).
  split; [exact Hh|]. split; [exact Hc|].
  exists lo. split; [exact Hr|].
  rewrite Hk by discriminate. reflexivity.
Defined.

(** C5, as stated, fails: the copy is one level deep.  For the request
    [{ method: "POST", url: "/api", headers: {...},
       body: { data: { k: "foo" } } }], the object [raw.body.data] is also
    the [body.data] of the value returned, so that the assignment
    [raw.body.data.k = "bar"] made after the call changes what the
    returned value reads there. *)
Lemma modify_request_shares_nested_objects :
  ∃ ret,
    (modifyProxyRequest (VRef 0) (proxy_world heap_nested [])).1 = Ok ret ∧
    ret ≠ VRef 0 ∧
    get_path (w_heap (modifyProxyRequest (VRef 0) (proxy_world heap_nested [])).2)
      (VRef 0) ["body"; "data"] = VRef 3 ∧
    get_path (w_heap (modifyProxyRequest (VRef 0) (proxy_world heap_nested [])).2)
      ret ["body"; "data"; "k"] = VStr "foo" ∧
    get_path
      (set_prop (w_heap (modifyProxyRequest (VRef 0) (proxy_world heap_nested [])).2)
         3 "k" (VStr "bar"))
      ret ["body"; "data"; "k"] = VStr "bar".
Proof.
  eexists. split; [vm_compute; reflexivity|].
  split; [discriminate|]. split_and!; vm_compute; reflexivity.
Qed.

(** C5, amended.  The value [modifyProxyRequest] returns for a request
    object is a new object.  Its fields other than [headers] and [body]
    have the values of the submitted ones; its [headers] is a new object
    with the own properties of the submitted headers; its [body] is
    [null], or a new object with the own properties of the submitted
    body.  Whatever is done after the call to an object that existed
    before it (the submitted request, its headers and its body among
    them) changes none of these three objects.  The copy goes one level
    deep: an object that a property of the submitted body refers to is
    the object the same property of the returned body refers to, and a
    later change of it is seen through the returned value. *)
Theorem modify_request_copy_one_level (l : loc) (o : obj) (w : world)
    (l1 : loc) (o1 : obj) :
  w_heap w !! l = Some o →
  l1 ∈ dom (w_heap w) →
  let h := w_heap w in
  let r := modifyProxyRequest (VRef l) w in
  let h' := w_heap r.2 in
  let h'' := <[l1 := o1]> h' in
  ∃ ret oret lh,
    r.1 = Ok (VRef ret) ∧ (ret ∉ dom h) ∧ (lh ∉ dom h) ∧
    h' !! ret = Some oret ∧ h'' !! ret = Some oret ∧
    (∀ k, k ≠ "headers" → k ≠ "body" → oret !! k = o !! k) ∧
    oret !! "headers" = Some (VRef lh) ∧
    h' !! lh = Some (own_props h (default VUndef (o !! "headers"))) ∧
    h'' !! lh = h' !! lh ∧
    (oret !! "body" = Some VNull ∨
     ∃ lb, oret !! "body" = Some (VRef lb) ∧ (lb ∉ dom h) ∧
           h' !! lb = Some (own_props h (default VUndef (o !! "body"))) ∧
           h'' !! lb = h' !! lb) ∧
    (∀ b k, o !! "body" = Some (VRef b) → props h b !! k = Some (VRef l1) →
       ∃ lb, oret !! "body" = Some (VRef lb) ∧
             props h'' lb !! k = Some (VRef l1) ∧ props h'' l1 = o1).
Proof.
  intros Hl Hl1 h r h' h''. subst r h' h''.
  unfold modifyProxyRequest. rewrite (modify_valid _ (VRef l)) by done.
  cbn [fst snd].
  destruct (copy_message (w_heap w) (VRef l)) as [v h'] eqn:Hc.
  destruct (copy_message_inv _ _ _ _ Hc)
    as (lo & lh & vb & -> & Hlo & Hlh & Hne & Hold & Hh & Ho & Hbody).
  cbn [get] in Hh, Hbody. rewrite (props_lookup _ _ _ Hl) in Hh, Hbody.
  cbn [own_props] in Ho. rewrite (props_lookup _ _ _ Hl) in Ho.
  cbn [with_heap w_heap]. fold h in Hlo, Hlh, Hold, Hh, Ho, Hbody, Hl1 |- *.
  assert (∀ l', l' ∉ dom h → <[l1 := o1]> h' !! l' = h' !! l') as Hnew.
  { intros l' Hl'. rewrite lookup_insert_ne; [done|]. by intros ->. }
  eexists lo, _, lh. split; [done|]. split; [done|]. split; [done|].
  split; [exact Ho|]. split; [by rewrite Hnew|].
  split; [intros k Hk1 Hk2; by rewrite !lookup_insert_ne|].
  split; [rewrite lookup_insert_ne by done; apply lookup_insert_eq|].
  split; [done|]. split; [by apply Hnew|].
  rewrite lookup_insert_eq. split.
  - destruct Hbody as [[_ ->]|(_ & lb & -> & Hlb & _ & _ & Hb)]; [by left|].
    right. exists lb. split_and!; try done. by apply Hnew.
  - intros b k Hob Hk. rewrite Hob in Hbody. cbn [default from_option] in Hbody.
    destruct Hbody as [[? _]|(_ & lb & -> & Hlb & _ & _ & Hb)]; [done|].
    exists lb. split; [done|]. split; [|apply props_lookup, lookup_insert_eq].
    unfold props at 1. by rewrite Hnew, Hb.
Qed.

Lemma modify_request_copy_one_level_witness :
  ∃ (ret : loc) (oret : obj) (lb : loc),
    (modifyProxyRequest (VRef 0) (proxy_world heap_nested [])).1 = Ok (VRef ret) ∧
    w_heap (modifyProxyRequest (VRef 0) (proxy_world heap_nested [])).2 !! ret
      = Some oret ∧
    oret !! "body" = Some (VRef lb) ∧
    props (<[3%nat := {[ "k" := VStr "bar" ]}]>
             (w_heap (modifyProxyRequest (VRef 0) (proxy_world heap_nested [])).2))
      lb !! "data" = Some (VRef 3).
Proof.
  assert (3%nat ∈ dom (w_heap (proxy_world heap_nested []))) as Hdom.
  { apply elem_of_dom. eexists. reflexivity. }
  destruct (modify_request_copy_one_level 0%nat
              (<[ "method" := VStr "POST" ]>
                 (<[ "url" := VStr "/api" ]>
                 (<[ "headers" := VRef 1 ]> {[ "body" := VRef 2 ]})))
              (proxy_world heap_nested []) 3%nat {[ "k" := VStr "bar" ]}
              eq_refl Hdom)
    as (ret & oret & lh & Hr & _ & _ & Hret & _ & _ & _ & _ & _ & _ & Hshare).
  destruct (Hshare 2%nat "data" eq_refl eq_refl) as (lb & Hb & Hk & _).
  exists ret, oret, lb. split; [exact Hr|]. split; [exact Hret|].
  split; [exact Hb|exact Hk].
Defined.

End Rewriting.

(** ** The proxy configuration *)

Section Configuration.
Import ProxyConfig ProxyService ProxyRun Examples.

(** [updateProxyConfig] passes no [runValidators] option, so that no
    update is ever rejected. *)
Lemma updateProxyConfig_succeeds (now : Z) (config : paths) (w : world) :
  (updateProxyConfig now config w).1 = Ok tt.
Proof.
  unfold updateProxyConfig, findOneAndUpdate. cbn.
  by destruct (w_configs w).
Qed.

Lemma updateProxyConfig_configs (now : Z) (config : paths) (w : world) :
  w_configs (updateProxyConfig now config w).2 =
    match w_configs w with
    | d :: rest => apply_update config d :: rest
    | [] => [new (pretty (w_next_id w)) now config]
    end.
Proof.
  unfold updateProxyConfig, findOneAndUpdate. cbn.
  by destruct (w_configs w).
Qed.

(** C8 (the code departs from the specification).  The hostname
    ["bad hostname!"] fails the validator of the schema, and yet
    [updateProxyConfig] resolves and stores it, both into an empty
    collection and over a valid configuration.  The same update is
    rejected once [runValidators] is set, the option [updateScript]
    passes to its own update.  The route of [PUT /api/proxy/config]
    does refuse ["bad hostname!"], but its pattern lets
    ["bad hostname"] through, which the schema's validator refuses as
    well, and the service stores it. *)
Theorem update_proxy_config_stores_invalid_hostname :
  hostname_validator "bad hostname!" = false ∧
  (updateProxyConfig 7 bad_config (proxy_world ∅ [])).1 = Ok tt ∧
  targetHostname <$> w_configs (updateProxyConfig 7 bad_config (proxy_world ∅ [])).2
    = [Some "bad hostname!"] ∧
  (updateProxyConfig 7 bad_config (proxy_world ∅ [new "0" 0 good_config])).1
    = Ok tt ∧
  targetHostname <$>
    w_configs (updateProxyConfig 7 bad_config
                 (proxy_world ∅ [new "0" 0 good_config])).2
    = [Some "bad hostname!"] ∧
  findOneAndUpdate "1" 7 bad_config
    {| opt_new := true; opt_upsert := true; opt_runValidators := true |}
    [new "0" 0 good_config] = None ∧
  (ProxyRoutes.put_config 7 bad_config (proxy_world ∅ [new "0" 0 good_config])).1
    = ProxyRoutes.BadRequest ∧
  hostname_validator "bad hostname" = false ∧
  (ProxyRoutes.put_config 7 spaced_config
     (proxy_world ∅ [new "0" 0 good_config])).1 = ProxyRoutes.Updated ∧
  targetHostname <$>
    w_configs (ProxyRoutes.put_config 7 spaced_config
                 (proxy_world ∅ [new "0" 0 good_config])).2
    = [Some "bad hostname"].
Proof. split_and!; reflexivity. Qed.

(** The entry [logProxyTraffic] builds has neither of the two required
    paths: its [save()] is always rejected. *)
Lemma save_traffic_entry (id : string) (now : Z) (coll : list document) :
  save (new id now traffic_entry) coll = None.
Proof. reflexivity. Qed.

Lemma logProxyTraffic_fails (now : Z) (request response : value) (w : world) :
  logProxyTraffic now request response w =
    (Err (ProxyTrafficLogError "Error logging proxy traffic"), w).
Proof.
  unfold logProxyTraffic. rewrite save_traffic_entry.
  by destruct (nullish request || nullish response).
Qed.

Lemma forwardProxyRequest_configs (e : env) mk tr (now : Z) (r : value)
    (w : world) :
  w_configs (forwardProxyRequest e mk tr now r w).2 = w_configs w.
Proof.
  unfold forwardProxyRequest.
  destruct (nullish r); [done|].
  destruct mk as [request|]; [|done].
  destruct (request _ _) as [[response h2]|]; [|done].
  destruct tr as [transform|]; [|done].
  destruct (transform _ _) as [[t h3]|]; [|done].
  by rewrite logProxyTraffic_fails.
Qed.

Lemma getProxyTraffic_world engine sort (f : filters) (w : world) :
  (getProxyTraffic engine sort f w).2 = w.
Proof.
  unfold getProxyTraffic.
  destruct (given (f_targetUrl f)) as [p|];
    [destruct (RegExp.compile_i engine p)|]; try done;
    by destruct (_ <? 0)%Z.
Qed.

Lemma modify_configs (message : string) (data : value) (w : world) :
  w_configs (modify message data w).2 = w_configs w.
Proof.
  unfold modify. destruct (invalid_data data); [done|].
  by destruct (copy_message (w_heap w) data).
Qed.

(** Every call but [updateProxyConfig] leaves the collection as it is. *)
Lemma apply_configs (H : host) (o : op) (w : world) :
  is_update o = false → w_configs (apply H o w) = w_configs w.
Proof.
  destruct o; cbn; intros Hu; try done.
  - by rewrite getProxyTraffic_world.
  - apply modify_configs.
  - apply modify_configs.
  - apply modify_configs.
  - apply forwardProxyRequest_configs.
  - by rewrite logProxyTraffic_fails.
Qed.

Lemma apply_length (H : host) (o : op) (w : world) :
  (List.length (w_configs w) ≤ 1)%nat →
  (List.length (w_configs (apply H o w)) ≤ 1)%nat.
Proof.
  intros Hlen. destruct (is_update o) eqn:Hu.
  - destruct o; try discriminate. cbn. rewrite updateProxyConfig_configs.
    by destruct (w_configs w).
  - by rewrite apply_configs.
Qed.

Lemma reachable_length (H : host) (w : world) :
  reachable H w → (List.length (w_configs w) ≤ 1)%nat.
Proof.
  induction 1 as [h|w h _ IH|w o _ IH]; cbn; [lia|done|].
  by apply apply_length.
Qed.

(** C9.  Starting from an empty collection, every state the service
    calls lead to holds at most one [ProxyConfig] document.  A call
    other than [updateProxyConfig] leaves the collection unchanged;
    [updateProxyConfig] rewrites the stored document in place; after any
    call, a stored document is still there, under the same identifier. *)
Theorem proxy_config_singleton (H : host) (w : world) :
  reachable H w →
  (List.length (w_configs w) ≤ 1)%nat ∧
  ∀ o,
    (List.length (w_configs (apply H o w)) ≤ 1)%nat ∧
    (is_update o = false → w_configs (apply H o w) = w_configs w) ∧
    (∀ now config d,
       o = UpdateProxyConfig now config → w_configs w = [d] →
       w_configs (apply H o w) = [apply_update config d]) ∧
    (∀ d, w_configs w = [d] →
          ∃ d', w_configs (apply H o w) = [d'] ∧ _id d' = _id d).
Proof.
  intros Hw. pose proof (reachable_length H w Hw) as Hlen.
  split; [done|]. intros o. split_and!.
  - by apply apply_length.
  - apply apply_configs.
  - intros now config d -> Hd. cbn.
    by rewrite updateProxyConfig_configs, Hd.
  - intros d Hd. destruct (is_update o) eqn:Hu.
    + destruct o; try discriminate. cbn.
      rewrite updateProxyConfig_configs, Hd. by eexists.
    + rewrite apply_configs, Hd by done. by eexists.
Qed.

Lemma proxy_config_singleton_witness :
  (List.length
     (w_configs
        (apply proxy_host (LogProxyTraffic 9 (VRef 0) (VRef 1))
           (apply proxy_host (UpdateProxyConfig 0 good_config)
              (proxy_world ∅ [])))) ≤ 1)%nat.
Proof.
  apply (proxy_config_singleton proxy_host
           (apply proxy_host (UpdateProxyConfig 0 good_config) (proxy_world ∅ []))).
  apply reach_call. apply (reach_start proxy_host ∅).
Defined.

End Configuration.

(** ** The traffic query *)

Section TrafficQuery.
Import ProxyConfig ProxyService QuerySpec Examples.

Lemma insert_desc_perm (b : bool) (x : document) (l : list document) :
  Permutation (insert_desc b x l) (x :: l).
Proof.
  induction l as [|y l IH]; cbn; [done|].
  destruct (if b then _ else _); [done|].
  rewrite IH. apply perm_swap.
Qed.

Lemma insert_desc_hd (b : bool) (x y : document) (l : list document) :
  newer_or_equal y x → HdRel newer_or_equal y l →
  HdRel newer_or_equal y (insert_desc b x l).
Proof.
  intros Hyx Hl. destruct l as [|z l]; cbn; [by constructor|].
  destruct (if b then _ else _); constructor; [done|].
  by inversion Hl.
Qed.

Lemma insert_desc_sorted (b : bool) (x : document) (l : list document) :
  Sorted newer_or_equal l → Sorted newer_or_equal (insert_desc b x l).
Proof.
  induction 1 as [|y l Hs IH Hhd]; cbn.
  - repeat constructor.
  - destruct (if b then _ else _) eqn:Hc.
    + constructor; [by constructor|]. constructor. unfold newer_or_equal.
      destruct b; lia.
    + constructor; [done|]. apply insert_desc_hd; [|done].
      unfold newer_or_equal. destruct b; lia.
Qed.

Lemma isort_sorts (b : bool) : sorts_newest_first (foldr (insert_desc b) []).
Proof.
  intros l. induction l as [|x l [IHp IHs]]; cbn.
  - split; [done|constructor].
  - split; [|by apply insert_desc_sorted].
    by rewrite insert_desc_perm, IHp.
Qed.

(** When a filter condition is met, in words. *)
Lemma matches_iff (test : option (string → bool)) (f : filters) (d : document) :
  matches test f d = true ↔
    (startDate f ≤ createdAt d ≤ endDate f)%Z ∧
    (∀ t, test = Some t → ∃ u, targetUrl d = Some u ∧ t u = true) ∧
    (∀ m, given (f_method f) = Some m → method d = Some m).
Proof.
  unfold matches. rewrite !andb_true_iff, !Z.leb_le. split.
  - intros [[[H1 H2] H3] H4]. split_and!; try done.
    + intros t ->. destruct (targetUrl d) as [u|]; [|done]. by exists u.
    + intros m Hm. rewrite Hm in H4. by apply bool_decide_eq_true in H4.
  - intros ([H1 H2] & H3 & H4). split_and!; try done.
    + destruct test as [t|]; [|done].
      by destruct (H3 t eq_refl) as (u & -> & Hu).
    + destruct (given (f_method f)) as [m|]; [|done].
      apply bool_decide_eq_true. by apply H4.
Qed.

(** C6, as stated, fails on two counts.  The filter on [targetUrl] is a
    regular expression, not a substring: the pattern ["a.c"] selects
    the record with target URL ["http://abc"], which does not contain
    it.  And the sort key is [createdAt] alone: a store that returns two
    records of one timestamp in reverse insertion order still sorts
    newest first, and the query passes that order on. *)
Lemma get_proxy_traffic_differs_from_spec_query :
  ((getProxyTraffic no_engine newest_first_stable (query (Some "a.c"))
      (proxy_world ∅ [traffic_doc "1" 10 (Some "http://abc")])).1
     = Ok [traffic_doc "1" 10 (Some "http://abc")] ∧
   spec_query (query (Some "a.c")) [traffic_doc "1" 10 (Some "http://abc")]
     = []) ∧
  (sorts_newest_first newest_first_reversed_ties ∧
   (getProxyTraffic no_engine newest_first_reversed_ties (query None)
      (proxy_world ∅ [traffic_doc "1" 5 None; traffic_doc "2" 5 None])).1
     = Ok [traffic_doc "2" 5 None; traffic_doc "1" 5 None] ∧
   spec_query (query None) [traffic_doc "1" 5 None; traffic_doc "2" 5 None]
     = [traffic_doc "1" 5 None; traffic_doc "2" 5 None]).
Proof.
  split; [split; reflexivity|].
  split; [apply isort_sorts|]. split; reflexivity.
Qed.

(** The result of the query, for pages and limits from 1 on. *)
Lemma getProxyTraffic_result (engine : string → option (string → bool))
    (sort : list document → list document) (f : filters) (w : world) :
  (1 ≤ page f)%Z → (1 ≤ limit f)%Z →
  (getProxyTraffic engine sort f w).1 =
    match match given (f_targetUrl f) with
          | Some pattern =>
              match RegExp.compile_i engine pattern with
              | Some t => Some (Some t)
              | None => None
              end
          | None => Some None
          end with
    | None => Err (ProxyTrafficLogError "Error fetching proxy traffic")
    | Some test =>
        Ok (take (Z.to_nat (limit f))
              (drop (Z.to_nat ((page f - 1) * limit f))
                 (sort (List.filter (matches test f) (w_configs w)))))
    end.
Proof.
  intros Hpage Hlimit. unfold getProxyTraffic.
  destruct (match given (f_targetUrl f) with Some _ => _ | None => _ end)
    as [test|]; [|done].
  destruct (Z.ltb_spec ((page f - 1) * limit f) 0) as [Hneg|_]; [nia|].
  cbn. unfold limit_to.
  destruct (Z.eqb_spec (limit f) 0) as [H0|_]; [lia|].
  by rewrite Z.abs_eq by lia.
Qed.

(** C6, amended.  For a query of page at least 1 and limit at least 1,
    and a store whose descending sort orders by [createdAt] (the order
    among equal timestamps being the store's), [getProxyTraffic] changes
    nothing and returns the window of [limit] records at offset
    [(page - 1) * limit] of a list, newest first, of exactly the stored
    records with [createdAt] in [[startDate, endDate]], with a
    [targetUrl] field that the filter matches as a case-insensitive
    regular expression when that filter is given, and with a [method]
    field equal to the filter's when that filter is given.  A filter
    that is not a valid regular expression makes the call fail. *)
Theorem get_proxy_traffic_query (engine : string → option (string → bool))
    (sort : list document → list document) (f : filters) (w : world) :
  sorts_newest_first sort →
  (1 ≤ page f)%Z → (1 ≤ limit f)%Z →
  let r := getProxyTraffic engine sort f w in
  let answer (test : option (string → bool)) :=
    ∃ found,
      (∀ d, d ∈ found ↔
            d ∈ w_configs w ∧
            (startDate f ≤ createdAt d ≤ endDate f)%Z ∧
            (∀ t, test = Some t → ∃ u, targetUrl d = Some u ∧ t u = true) ∧
            (∀ m, given (f_method f) = Some m → method d = Some m)) ∧
      Permutation found (List.filter (matches test f) (w_configs w)) ∧
      Sorted newer_or_equal found ∧
      r.1 = Ok (take (Z.to_nat (limit f))
                  (drop (Z.to_nat ((page f - 1) * limit f)) found)) in
  r.2 = w ∧
  match given (f_targetUrl f) with
  | None => answer None
  | Some pattern =>
      match RegExp.compile_i engine pattern with
      | Some t => answer (Some t)
      | None => r.1 = Err (ProxyTrafficLogError "Error fetching proxy traffic")
      end
  end.
Proof.
  intros Hsort Hpage Hlimit r answer.
  split; [apply getProxyTraffic_world|].
  assert (∀ test,
    r.1 = Ok (take (Z.to_nat (limit f))
                (drop (Z.to_nat ((page f - 1) * limit f))
                   (sort (List.filter (matches test f) (w_configs w))))) →
    answer test) as Hanswer.
  { intros test Hr.
    exists (sort (List.filter (matches test f) (w_configs w))).
    destruct (Hsort (List.filter (matches test f) (w_configs w))) as [Hp Hs].
    split_and!; try done.
    intros d. rewrite Hp, list_elem_of_In, filter_In, <- list_elem_of_In.
    by rewrite matches_iff. }
  pose proof (getProxyTraffic_result engine sort f w Hpage Hlimit) as Hr.
  fold r in Hr.
  destruct (given (f_targetUrl f)) as [pattern|]; [|by apply Hanswer].
  destruct (RegExp.compile_i engine pattern) as [t|]; [by apply Hanswer|done].
Qed.

Lemma get_proxy_traffic_query_witness :
  (getProxyTraffic no_engine newest_first_stable (query None)
     (proxy_world ∅ [traffic_doc "1" 5 None; traffic_doc "2" 7 None])).2
  = proxy_world ∅ [traffic_doc "1" 5 None; traffic_doc "2" 7 None].
Proof.
  apply (get_proxy_traffic_query no_engine newest_first_stable (query None)
           (proxy_world ∅ [traffic_doc "1" 5 None; traffic_doc "2" 7 None])
           (isort_sorts false)).
  - cbn. lia.
  - cbn. lia.
Defined.

End TrafficQuery.

(** ** Script execution *)

Section Execution.
Import Userscript ScriptService ScriptRun Vm Examples.


(** [executeScript] on a context object. *)
Lemma executeScript_object (H : host) (id : string) (sandbox : loc)
    (w : world) :
  executeScript H id (VRef sandbox) w =
    let failure :=
      Err (ScriptExecutionError ("Error executing userscript (ID: " ++ id ++ ")")) in
    match findById id (w_scripts w) with
    | None => Settled failure w
    | Some script =>
        match parse H (content script) with
        | None => Settled failure w
        | Some code =>
            let left_with g := with_heap w (<[sandbox := g]> (w_heap w)) in
            match runInContext (predefined H) (steps_per_ms H) code
                    (props (w_heap w) sandbox) 5000%N with
            | Done v g jobs => after jobs (Ok v) (left_with g)
            | Threw _ g jobs | TimedOut g jobs => after jobs failure (left_with g)
            | Beyond => Unmodelled
            end
        end
    end.
Proof.
  unfold executeScript, getScriptById, executeInSandbox, run_in. cbn zeta.
  destruct (findById id (w_scripts w)) as [script|]; [|done].
  destruct (parse H (content script)) as [code|]; [|done].
  by destruct (runInContext _ _ _ _ _) as [? ? []|? ? []|? []|].
Qed.


Lemma run_final (p : string → bool) (n : nat) (c : config) (f : final) :
  step p c = inr f → run p n c = f.
Proof. intros Hs. destruct n; cbn [run]; by rewrite Hs. Qed.

(** A run that has ended without the watchdog ends the same way under
    any larger budget. *)
Lemma run_mono (p : string → bool) (n m : nat) (c : config) (f : final) :
  run p n c = f → (∀ g jobs, f ≠ TimedOut g jobs) → (n ≤ m)%nat →
  run p m c = f.
Proof.
  revert m c. induction n as [|n IH]; intros m c Hrun Hf Hle;
    destruct m as [|m]; cbn [run] in *; try lia;
    destruct (step p c) as [c'|f'] eqn:Hs; try done.
  - subst f. by destruct (Hf (globals c) (later c)).
  - apply IH; [done|done|lia].
Qed.

(** A run the watchdog stops was not over under any smaller budget. *)
Lemma run_cut_off (p : string → bool) (n m : nat) (c : config) (g : obj)
    (jobs : list stmt) :
  run p n c = TimedOut g jobs → (m ≤ n)%nat →
  ∃ g' jobs', run p m c = TimedOut g' jobs'.
Proof.
  intros Hrun Hle.
  destruct (run p m c) as [v g' j|e g' j|g' j|] eqn:Hm;
    [| |by exists g', j|];
    rewrite (run_mono p m n c _ Hm) in Hrun; done.
Qed.

(** A step of a script that schedules no job schedules none. *)
Lemma step_synchronous (p : string → bool) (c : config) :
  later c = [] → forallb item_synchronous (todo c) = true →
  match step p c with
  | inl c' => later c' = [] ∧ forallb item_synchronous (todo c') = true
  | inr f => final_jobs f = []
  end.
Proof.
  intros Hl Ht. unfold step.
  destruct (todo c) as [|[s|e body] k]; [done| |].
  - cbn [forallb item_synchronous] in Ht.
    apply andb_true_iff in Ht as [Hs Hk].
    destruct s as [|e|x e|e|s1 s2|e body|body]; cbn [synchronous] in Hs.
    + done.
    + by destruct (eval p e (globals c)).
    + destruct (p x); [done|]. by destruct (eval p e (globals c)).
    + by destruct (eval p e (globals c)).
    + apply andb_true_iff in Hs as [Hs1 Hs2]. cbn. by rewrite Hs1, Hs2.
    + cbn. by rewrite Hs.
    + done.
  - cbn [forallb item_synchronous] in Ht.
    apply andb_true_iff in Ht as [Hs Hk].
    destruct (eval p e (globals c)) as [v| |]; [|done..].
    destruct (truthy v); cbn; [by rewrite Hs, Hk|done].
Qed.

Lemma run_synchronous (p : string → bool) (n : nat) (c : config) :
  later c = [] → forallb item_synchronous (todo c) = true →
  final_jobs (run p n c) = [].
Proof.
  revert c. induction n as [|n IH]; intros c Hl Ht; cbn [run];
    pose proof (step_synchronous p c Hl Ht) as Hs;
    destruct (step p c) as [c'|f]; try done.
  destruct Hs as [Hl' Ht']. by apply IH.
Qed.

(** The run of a script that schedules no job leaves none. *)
Lemma synchronous_no_jobs (p : string → bool) (n : nat) (code : stmt)
    (g : obj) :
  synchronous code = true → final_jobs (run p n (start code g)) = [].
Proof.
  intros Hs. apply run_synchronous; [done|]. cbn. by rewrite Hs.
Qed.

Lemma loop_never_stops (p : string → bool) (n : nat) (c : config) :
  todo c = [KLoop (ELit (LBool true)) SEmpty] ∨
  todo c = [KStmt SEmpty; KLoop (ELit (LBool true)) SEmpty] →
  run p n c = TimedOut (globals c) (later c).
Proof.
  revert c. induction n as [|n IH]; intros [t v g l] [Ht|Ht];
    cbn in Ht; subst t;
    cbn [run step todo eval lit_value truthy globals completion later].
  - done.
  - done.
  - rewrite IH; cbn; auto.
  - rewrite IH; cbn; auto.
Qed.

Lemma while_true_never_finishes (p : string → bool) (g : obj) :
  never_finishes p (SWhile (ELit (LBool true)) SEmpty) g.
Proof.
  intros [|n]; exists g, []; [done|].
  cbn [run step start todo globals completion later].
  rewrite loop_never_stops; cbn; auto.
Qed.




(** What [executeScript] reports for the script that never finishes and
    for the script that throws. *)
Lemma spinning_and_throwing_reports :
  reported (executeScript repository_host "1" (VRef 0)
              (registry_with "while (true) {}"))
    = Some (Err (ScriptExecutionError "Error executing userscript (ID: 1)")) ∧
  reported (executeScript repository_host "1" (VRef 0)
              (registry_with "throw 1"))
    = Some (Err (ScriptExecutionError "Error executing userscript (ID: 1)")).
Proof. split; vm_compute; reflexivity. Qed.

(** C2, as stated, fails on two counts.  No [Timeout] is reported: the
    script [while (true) {}] never finishes, and what [executeScript]
    reports for it is the error value it reports for the faulting
    script [throw 1].  And a loop that never yields can escape the
    budget: the run of
    [Promise.resolve().then(() => { while (true) {} })] is over at
    once, so that the watchdog has nothing to stop; the loop is left as
    a job of the microtask queue, the call is pending on it, and that
    job, run on the context object, never finishes. *)
Lemma never_yielding_script_reported_as_any_failure :
  (never_finishes (predefined repository_host)
     (SWhile (ELit (LBool true)) SEmpty) {[ "value" := VNum 41 ]} ∧
   reported (executeScript repository_host "1" (VRef 0)
               (registry_with "while (true) {}"))
     = Some (Err (ScriptExecutionError "Error executing userscript (ID: 1)")) ∧
   reported (executeScript repository_host "1" (VRef 0)
               (registry_with "throw 1"))
     = Some (Err (ScriptExecutionError "Error executing userscript (ID: 1)"))) ∧
  (∃ w',
     executeScript repository_host "1" (VRef 0)
       (registry_with "Promise.resolve().then(() => { while (true) {} })")
       = Pending [SWhile (ELit (LBool true)) SEmpty] w' ∧
     never_finishes (predefined repository_host)
       (SWhile (ELit (LBool true)) SEmpty) (props (w_heap w') 0)).
Proof.
  split.
  - split; [apply while_true_never_finishes|].
    exact spinning_and_throwing_reports.
  - eexists. split; [vm_compute; reflexivity|].
    apply while_true_never_finishes.
Qed.

(** C2, amended.  For a stored script that schedules no job, the budget
    of [executeScript] is the 5000 ms it passes to [vm.runInContext],
    whatever the script.  A run that is not over when they are used up,
    and so the run of a script that never finishes, is stopped there by
    the watchdog, and [executeScript] returns no result: it reports the
    [ScriptExecutionError] with message
    [Error executing userscript (ID: id)], which carries no kind and is
    the error of every failed execution; the context object is left
    with the bindings of the moment the run was stopped.  A run that
    completes within the 5000 ms is not cut short: its completion value
    is returned.  The budget does not cover a job the script schedules:
    the call of the script [Promise.resolve().then(() => { body })] is
    left pending on the job [body], whatever [body] is, also when it
    never finishes. *)
Theorem never_yielding_script_is_cut_off (H : host) (id : string)
    (sandbox : loc) (w : world) (script : document) (code : stmt) :
  findById id (w_scripts w) = Some script →
  parse H (content script) = Some code →
  let g := props (w_heap w) sandbox in
  let budget := (N.to_nat 5000 * steps_per_ms H)%nat in
  let failure :=
    Err (ScriptExecutionError ("Error executing userscript (ID: " ++ id ++ ")")) in
  let left_with g' := with_heap w (<[sandbox := g']> (w_heap w)) in
  (synchronous code = true →
   (∀ n g' jobs, (budget ≤ n)%nat →
      run (predefined H) n (start code g) = TimedOut g' jobs →
      ∃ g'', run (predefined H) budget (start code g) = TimedOut g'' [] ∧
             executeScript H id (VRef sandbox) w
               = Settled failure (left_with g'')) ∧
   (never_finishes (predefined H) code g →
      ∃ g'', executeScript H id (VRef sandbox) w
               = Settled failure (left_with g'')) ∧
   (∀ n v g' jobs, (n ≤ budget)%nat →
      run (predefined H) n (start code g) = Done v g' jobs →
      executeScript H id (VRef sandbox) w = Settled (Ok v) (left_with g'))) ∧
  (∀ body, code = SThen body → g !! "Promise" = None →
     (0 < steps_per_ms H)%nat →
     executeScript H id (VRef sandbox) w = Pending [body] (left_with g)).
Proof.
  intros Hfind Hparse g budget failure left_with. split.
  - intros Hsync.
    assert (∀ g'' jobs,
              run (predefined H) budget (start code g) = TimedOut g'' jobs →
              jobs = [] ∧
              executeScript H id (VRef sandbox) w
                = Settled failure (left_with g''))
      as Hstopped.
    { intros g'' jobs Hg.
      pose proof (synchronous_no_jobs (predefined H) budget code g Hsync) as Hj.
      rewrite Hg in Hj. cbn in Hj. subst jobs. split; [done|].
      rewrite executeScript_object. cbn zeta.
      rewrite Hfind, Hparse. unfold runInContext. fold g budget. by rewrite Hg. }
    split_and!.
    + intros n g' jobs Hn Hrun.
      destruct (run_cut_off _ _ budget _ _ _ Hrun Hn) as (g'' & jobs' & Hg).
      destruct (Hstopped _ _ Hg) as [-> He]. by exists g''.
    + intros Hloop. destruct (Hloop budget) as (g'' & jobs & Hg).
      exists g''. by apply (Hstopped _ _ Hg).
    + intros n v g' jobs Hn Hrun.
      pose proof (synchronous_no_jobs (predefined H) n code g Hsync) as Hj.
      fold g in Hj. rewrite Hrun in Hj. cbn in Hj. subst jobs.
      rewrite executeScript_object. cbn zeta.
      rewrite Hfind, Hparse. unfold runInContext. fold g budget.
      by rewrite (run_mono _ n budget _ _ Hrun).
  - intros body -> Hpromise Hspeed.
    rewrite executeScript_object. cbn zeta.
    rewrite Hfind, Hparse. unfold runInContext. fold g budget.
    destruct budget as [|n] eqn:Hn; [subst budget; lia|].
    cbn [run step start todo globals completion later].
    rewrite Hpromise.
    by rewrite (run_final _ n _ (Done VUndef g [body])).
Qed.

Lemma never_yielding_script_is_cut_off_witness :
  ∃ g,
    executeScript repository_host "1" (VRef 0) (registry_with "while (true) {}")
    = Settled
        (Err (ScriptExecutionError ("Error executing userscript (ID: " ++ "1" ++ ")")))
        (with_heap (registry_with "while (true) {}")
           (<[0%nat := g]> (w_heap (registry_with "while (true) {}")))).
Proof.
  destruct (never_yielding_script_is_cut_off repository_host "1" 0%nat
              (registry_with "while (true) {}")
              {| _id := "1"; name := "job"; description := "a job";
                 content := "while (true) {}"; createdAt := 0; updatedAt := 0 |}
              (SWhile (ELit (LBool true)) SEmpty) eq_refl eq_refl)
    as ((_ & Hloop & _) & _); [reflexivity|].
  apply Hloop. apply while_true_never_finishes.
Defined.



End Execution.

(** ** The script registry *)

Section Registry.
Import Userscript ScriptService ScriptRun Examples.

Lemma name_char_not_white_space (c : ascii) :
  name_char c = true → white_space c = false.
Proof.
  destruct c as [[] [] [] [] [] [] [] []]; vm_compute; congruence.
Qed.

Lemma trim_start_valid (s : string) :
  all_chars name_char s = true → trim_start s = s.
Proof.
  destruct s as [|c s]; cbn; [done|].
  intros [Hc _]%andb_true_iff. by rewrite name_char_not_white_space.
Qed.

Lemma trim_end_valid (s : string) :
  all_chars name_char s = true → trim_end s = s.
Proof.
  induction s as [|c s IH]; cbn; [done|].
  intros [Hc Hs]%andb_true_iff. rewrite IH by done.
  rewrite name_char_not_white_space by done. by destruct s.
Qed.

(** The setter [trim] leaves a name of the allowed characters alone. *)
Lemma trim_valid (n : string) : name_validator n = true → trim n = n.
Proof.
  intros [_ Hn]%andb_true_iff. unfold trim.
  by rewrite trim_start_valid, trim_end_valid.
Qed.

Lemma name_taken_None (n : string) (coll : list document) :
  name_taken None n coll = true ↔ n ∈ name <$> coll.
Proof.
  unfold name_taken. rewrite existsb_exists, list_elem_of_fmap.
  split.
  - intros (d & Hd%list_elem_of_In & [Hn%bool_decide_eq_true _]%andb_true_iff).
    by exists d.
  - intros (d & -> & Hd). exists d. split; [by apply list_elem_of_In|].
    by rewrite bool_decide_eq_true_2.
Qed.

Lemma name_taken_Some (id n : string) (coll : list document) :
  name_taken (Some id) n coll = false →
  ∀ d, d ∈ coll → _id d ≠ id → name d ≠ n.
Proof.
  unfold name_taken. intros Hex d Hd Hid Hn.
  assert (existsb
            (λ d, bool_decide (name d = n) &&
                  negb (bool_decide (Some (_id d) = Some id))) coll = true)
    as Htrue; [|congruence].
  apply existsb_exists. exists d. split; [by apply list_elem_of_In|].
  rewrite bool_decide_eq_true_2 by done.
  rewrite bool_decide_eq_false_2; [done|congruence].
Qed.

Lemma create_inv (id : string) (now : Z) (o : paths)
    (coll : list document) (d : document) (coll' : list document) :
  create id now o coll = Some (d, coll') →
  coll' = app coll [d] ∧ _id d = id ∧ name d ∉ name <$> coll.
Proof.
  unfold create. destruct (validate (cast o)); [|done].
  destruct (p_name (cast o)) as [n|]; [|done].
  destruct (p_description (cast o)); [|done].
  destruct (p_content (cast o)); [|done].
  destruct (name_taken None n coll) eqn:Ht; [done|].
  intros [= <- <-]. split_and!; try done. cbn.
  intros Hin%name_taken_None. congruence.
Qed.

(** A create under a name already stored is rejected. *)
Lemma create_taken (id : string) (now : Z) (o : paths)
    (coll : list document) (n : string) :
  p_name (cast o) = Some n → n ∈ name <$> coll → create id now o coll = None.
Proof.
  intros Hn Hin. unfold create. destruct (validate (cast o)); [|done].
  rewrite Hn.
  destruct (p_description (cast o)); [|done].
  destruct (p_content (cast o)); [|done].
  by rewrite (proj2 (name_taken_None n coll) Hin).
Qed.

Lemma update_first_ids (id : string) (u : paths) (coll : list document) :
  _id <$> update_first id u coll = _id <$> coll.
Proof.
  induction coll as [|d coll IH]; cbn; [done|].
  case_bool_decide; cbn; [done|]. by rewrite IH.
Qed.

Lemma update_first_names_same (id : string) (u : paths)
    (coll : list document) :
  p_name u = None → name <$> update_first id u coll = name <$> coll.
Proof.
  intros Hu. induction coll as [|d coll IH]; cbn; [done|].
  case_bool_decide; cbn; [by rewrite Hu|]. by rewrite IH.
Qed.

Lemma update_first_names_in (id : string) (u : paths)
    (coll : list document) (x : string) :
  x ∈ name <$> update_first id u coll →
  x ∈ name <$> coll ∨ p_name u = Some x.
Proof.
  induction coll as [|d coll IH]; cbn; [by left|].
  case_bool_decide; cbn.
  - intros [->|Hx]%elem_of_cons.
    + destruct (p_name u); cbn; [by right|]. left. apply elem_of_cons. by left.
    + left. apply elem_of_cons. by right.
  - intros [->|Hx]%elem_of_cons.
    + left. apply elem_of_cons. by left.
    + destruct (IH Hx); [left|by right]. apply elem_of_cons. by right.
Qed.

Lemma update_first_names (id : string) (u : paths) (coll : list document)
    (n : string) :
  p_name u = Some n →
  NoDup (_id <$> coll) → NoDup (name <$> coll) →
  (∀ d, d ∈ coll → _id d ≠ id → name d ≠ n) →
  NoDup (name <$> update_first id u coll).
Proof.
  intros Hu. induction coll as [|d coll IH]; cbn; [done|].
  intros [Hid Hids]%NoDup_cons [Hname Hnames]%NoDup_cons Hother.
  case_bool_decide as Hd; cbn.
  - rewrite Hu. cbn. apply NoDup_cons. split; [|done].
    intros (d2 & Hn2 & Hd2)%list_elem_of_fmap.
    apply (Hother d2); [by apply elem_of_cons; right| |done].
    intros Heq. apply Hid. apply list_elem_of_fmap. exists d2.
    split; [congruence|done].
  - apply NoDup_cons. split.
    + intros [Hin|Hin]%update_first_names_in; [done|].
      apply (Hother d); [by apply elem_of_cons; left|done|congruence].
    + apply IH; try done. intros d2 Hd2. apply Hother.
      apply elem_of_cons. by right.
Qed.

Lemma update_first_in (id : string) (u : paths) (coll : list document)
    (d : document) :
  d ∈ update_first id u coll → ∃ d0, d0 ∈ coll ∧ _id d = _id d0.
Proof.
  induction coll as [|e coll IH]; cbn; [by intros ?%elem_of_nil|].
  case_bool_decide; cbn.
  - intros [->|Hd]%elem_of_cons.
    + exists e. split; [by apply elem_of_cons; left|done].
    + exists d. split; [by apply elem_of_cons; right|done].
  - intros [->|Hd]%elem_of_cons.
    + exists e. split; [by apply elem_of_cons; left|done].
    + destruct (IH Hd) as (d0 & ? & ?). exists d0.
      split; [by apply elem_of_cons; right|done].
Qed.

Lemma delete_first_in (id : string) (coll : list document) (d : document) :
  d ∈ delete_first id coll → d ∈ coll.
Proof.
  induction coll as [|e coll IH]; cbn; [done|].
  case_bool_decide.
  - intros ?. apply elem_of_cons. by right.
  - intros [->|Hd]%elem_of_cons; apply elem_of_cons; [by left|right; auto].
Qed.

Lemma delete_first_NoDup {A : Type} (f : document → A) (id : string)
    (coll : list document) :
  NoDup (f <$> coll) → NoDup (f <$> delete_first id coll).
Proof.
  induction coll as [|e coll IH]; cbn; [done|].
  intros [Hf Hrest]%NoDup_cons. case_bool_decide; [done|].
  cbn. apply NoDup_cons. split; [|by apply IH].
  intros (d & Hd & Hin%delete_first_in)%list_elem_of_fmap.
  apply Hf. apply list_elem_of_fmap. by exists d.
Qed.

Lemma execute_registry (H : host) (id : string) (context : value) (w : world) :
  w_scripts (state_after w (executeScript H id context w)) = w_scripts w ∧
  w_next_id (state_after w (executeScript H id context w)) = w_next_id w.
Proof.
  unfold executeScript, getScriptById, executeInSandbox, run_in. cbn zeta.
  destruct (findById id (w_scripts w)) as [script|]; [|done].
  destruct context; try done; unfold alloc;
    (destruct (parse H (content script)); [|done]);
    by destruct (Vm.runInContext _ _ _ _ _) as [? ? []|? ? []|? []|].
Qed.

(** Every call keeps the registry well formed. *)
Lemma apply_well_formed (H : host) (o : op) (w : world) :
  well_formed w → well_formed (apply H o w).
Proof.
  intros (Hnames & Hids & Hbound). destruct o as [|id|now o|id u|id|id c]; cbn.
  - done.
  - unfold getScriptById. by destruct (findById id (w_scripts w)).
  - unfold createScript.
    destruct (sanitizeScript H) as [sanitize|]; [|done].
    destruct (create _ _ _ _) as [[d coll]|] eqn:Hc; [|done]. cbn.
    destruct (create_inv _ _ _ _ _ _ Hc) as (-> & Hid & Hfresh).
    split_and!; cbn.
    + rewrite fmap_app. apply NoDup_app. split_and!; [done| |apply NoDup_singleton].
      intros x Hx ->%list_elem_of_singleton. done.
    + rewrite fmap_app. apply NoDup_app. split_and!; [done| |apply NoDup_singleton].
      intros x (d0 & -> & Hd0)%list_elem_of_fmap Hx%list_elem_of_singleton.
      destruct (Hbound d0 Hd0) as (k & Hk & Hidk).
      assert (k = w_next_id w); [|lia].
      apply (inj pretty). congruence.
    + intros d0 [Hd0|Hd0]%elem_of_app.
      * destruct (Hbound d0 Hd0) as (k & Hk & Hidk). exists k. split; [lia|done].
      * apply list_elem_of_singleton in Hd0 as ->.
        exists (w_next_id w). split; [lia|done].
  - unfold updateScript, findByIdAndUpdate.
    destruct (sanitizeScript H) as [sanitize|]; [|done].
    destruct (validate_update _); [|done].
    destruct (findById id (w_scripts w)) as [d|]; [|done].
    destruct (p_name (cast (sanitize u))) as [n|] eqn:Hn; cbn.
    + destruct (name_taken (Some id) n (w_scripts w)) eqn:Ht; [done|]. cbn.
      split_and!; cbn.
      * apply (update_first_names _ _ _ n); try done.
        by apply name_taken_Some.
      * by rewrite update_first_ids.
      * intros d1 (d0 & Hd0 & ->)%update_first_in. by apply Hbound.
    + split_and!; cbn.
      * by rewrite update_first_names_same.
      * by rewrite update_first_ids.
      * intros d1 (d0 & Hd0 & ->)%update_first_in. by apply Hbound.
  - unfold deleteScript, findByIdAndDelete.
    destruct (findById id (w_scripts w)); [|done]. cbn.
    split_and!; cbn.
    + by apply delete_first_NoDup.
    + by apply delete_first_NoDup.
    + intros d0 Hd0%delete_first_in. by apply Hbound.
  - destruct (execute_registry H id c w) as [Hs Hn].
    unfold well_formed. by rewrite Hs, Hn.
Qed.

Lemma reachable_well_formed (H : host) (w : world) :
  reachable H w → well_formed w.
Proof.
  induction 1 as [h|w h _ IH|w o _ IH].
  - split_and!; cbn; [constructor|constructor|]. by intros d ?%elem_of_nil.
  - done.
  - by apply apply_well_formed.
Qed.

(** With [helpers.js] as it is, every create fails, and changes
    nothing. *)
Lemma createScript_undefined (H : host) (now : Z) (scriptData : paths)
    (w : world) :
  sanitizeScript H = Helpers.sanitizeScript →
  createScript H now scriptData w =
    (Err (InvalidScriptError "Error creating userscript"), w).
Proof. unfold createScript. by intros ->. Qed.

(** C7, as stated, fails in the error it names: the registry has one
    error for every failed create.  No classification of the outcome of
    [createScript] says [DuplicateName] for the create under the stored
    name [job] and [InvalidInput] for the create under the name
    [not a name!], since both outcomes are the same value. *)
Lemma duplicate_name_not_told_from_invalid_input :
  ¬ ∃ kind_of : result document → create_failure,
      kind_of (createScript repository_host 5 job (registry_with "value")).1
        = DuplicateName ∧
      kind_of (createScript repository_host 5 misnamed_job
                 (registry_with "value")).1
        = InvalidInput.
Proof.
  intros (kind_of & Hd & Hi).
  change (createScript repository_host 5 misnamed_job (registry_with "value")).1
    with (createScript repository_host 5 job (registry_with "value")).1 in Hi.
  congruence.
Qed.

(** C7, amended.  In every state the registry can reach, no two stored
    scripts share a name, whatever [sanitizeScript] is.  With
    [helpers.js] as it is, [sanitizeScript] is undefined and every
    create, under a name already stored or not, fails with the
    [InvalidScriptError] of message [Error creating userscript] and
    leaves every stored script, and the rest of the state, as it was.
    Behind that call, the model rejects the [save()] of a document whose
    trimmed name a stored script already has. *)
Theorem script_names_unique (H : host) :
  (∀ w, reachable H w → NoDup (name <$> w_scripts w)) ∧
  (sanitizeScript H = Helpers.sanitizeScript →
   ∀ w now scriptData,
     createScript H now scriptData w =
       (Err (InvalidScriptError "Error creating userscript"), w)) ∧
  (∀ id now o coll n,
     p_name o = Some n → trim n ∈ name <$> coll → create id now o coll = None).
Proof.
  split_and!.
  - intros w Hw. by destruct (reachable_well_formed H w Hw).
  - intros Hundefined w now scriptData. by apply createScript_undefined.
  - intros id now o coll n Hn Hin.
    apply (create_taken _ _ _ _ (trim n)); [|done]. cbn. by rewrite Hn.
Qed.

Lemma script_names_unique_witness :
  createScript repository_host 5 job (registry_with "value") =
    (Err (InvalidScriptError "Error creating userscript"), registry_with "value").
Proof.
  apply (proj1 (proj2 (script_names_unique repository_host))).
  reflexivity.
Defined.

End Registry.

(** ** Logging, forwarding and the middleware *)

Section Forwarding.
Import ProxyConfig ProxyService ProxyMiddleware MoreExamples Examples.

(** X1.  [logProxyTraffic] never stores a record: whatever request
    and response it is given, the entry it builds lacks the required
    paths of the schema, its [save()] is rejected, and the call fails
    with [ProxyTrafficLogError], the state being left as it was. *)
Theorem log_proxy_traffic_never_stores (now : Z) (request response : value)
    (w : world) :
  logProxyTraffic now request response w =
    (Err (ProxyTrafficLogError "Error logging proxy traffic"), w).
Proof.
  unfold logProxyTraffic.
  assert (save (new (pretty (w_next_id w)) now traffic_entry) (w_configs w)
          = None) as -> by reflexivity.
  by destruct (nullish request || nullish response).
Qed.

(** What [forwardProxyRequest] does on any input, whatever the two
    helpers are. *)
Lemma forwardProxyRequest_outcome (e : env)
    (makeHttpRequest : option (http_call → heap → option (value * heap)))
    (transformRequestResponse : option (value → heap → option (value * heap)))
    (now : Z) (modifiedRequest : value) (w : world) :
  let r := forwardProxyRequest e makeHttpRequest transformRequestResponse
             now modifiedRequest w in
  r.1 = Err (ProxyTrafficLogError "Error forwarding proxy request") ∧
  w_configs r.2 = w_configs w ∧
  (makeHttpRequest = None → r.2 = w).
Proof.
  intros r. subst r. unfold forwardProxyRequest.
  destruct (nullish modifiedRequest); [done|].
  destruct makeHttpRequest as [request|]; [|done].
  destruct (request _ _) as [[response h2]|]; [|done].
  destruct transformRequestResponse as [transform|]; [|done].
  destruct (transform _ _) as [[t h3]|]; [|done].
  by rewrite logProxyTraffic_fails.
Qed.

(** X2.  [forwardProxyRequest] never returns a response: on every
    input, and whatever the two helpers it calls do, it fails with the
    [ProxyTrafficLogError] of message [Error forwarding proxy request],
    and the collection is never written.  With [helpers.js] as it is,
    [makeHttpRequest] is undefined: the call fails before any request is
    made to the target, and leaves the state as it was. *)
Theorem forward_proxy_request_never_returns (e : env)
    (makeHttpRequest : option (http_call → heap → option (value * heap)))
    (transformRequestResponse : option (value → heap → option (value * heap)))
    (now : Z) (modifiedRequest : value) (w : world) :
  let r := forwardProxyRequest e makeHttpRequest transformRequestResponse
             now modifiedRequest w in
  r.1 = Err (ProxyTrafficLogError "Error forwarding proxy request") ∧
  w_configs r.2 = w_configs w ∧
  (makeHttpRequest = Helpers.makeHttpRequest → r.2 = w).
Proof.
  exact (forwardProxyRequest_outcome e makeHttpRequest
           transformRequestResponse now modifiedRequest w).
Qed.

(** How [proxyMiddleware] ends, whatever the two helpers are. *)
Lemma proxyMiddleware_outcome (e : env)
    (makeHttpRequest : option (http_call → heap → option (value * heap)))
    (transformRequestResponse : option (value → heap → option (value * heap)))
    (now1 now2 : Z) (req : value) (w : world) :
  let r := proxyMiddleware e makeHttpRequest transformRequestResponse
             now1 now2 req w in
  let h := w_heap w in
  (∃ err, r.1 = Next err) ∧
  w_configs r.2 = w_configs w ∧
  (makeHttpRequest = Helpers.makeHttpRequest →
   w_http r.2 = w_http w ∧
   r.1 =
     if nullish req then Next PropertyOfNullish
     else if negb (truthy (get h req "method"))
             || negb (truthy (get h req "url"))
             || negb (bool_decide (typeof (get h req "headers") = "object"))
     then Next (PlainError "Invalid request data")
     else Next (ServiceError
                  (ProxyTrafficLogError "Error forwarding proxy request"))).
Proof.
  intros r h. subst r. unfold proxyMiddleware.
  destruct (nullish req); [split_and!; [by eexists|done|done]|]. fold h.
  destruct (negb (truthy (get h req "method")) || _ || _);
    [split_and!; [by eexists|done|done]|].
  match goal with |- context [alloc h ?o] => set (o0 := o) end.
  destruct (alloc h o0) as [l h1].
  unfold modifyProxyRequest.
  rewrite (modify_valid _ (VRef l)) by done.
  destruct (copy_message (w_heap (with_heap w h1)) (VRef l)) as [v h2] eqn:Hc.
  cbn [fst snd].
  pose proof (forwardProxyRequest_outcome e makeHttpRequest
                transformRequestResponse now1 v
                (with_heap (with_heap w h1) h2)) as (Hr & Hcfg & Hw).
  destruct (forwardProxyRequest _ _ _ _ _ _) as [[response|err] w3];
    cbn [fst snd] in *; [done|].
  injection Hr as ->. split_and!; [by eexists|done|].
  intros ->. by rewrite (Hw eq_refl).
Qed.

(** X3.  [proxyMiddleware] never sends a response to the client:
    whatever the two helpers do, every request ends in [next(err)], and
    the collection is never written.  With [helpers.js] as it is, no
    request is made to the target either.  A request without [method]
    or [url], or whose [headers] is not of type [object], ends in the
    plain error [Invalid request data]; every other request ends in the
    [ProxyTrafficLogError] of [forwardProxyRequest]. *)
Theorem proxy_middleware_never_sends (e : env)
    (makeHttpRequest : option (http_call → heap → option (value * heap)))
    (transformRequestResponse : option (value → heap → option (value * heap)))
    (now1 now2 : Z) (req : value) (w : world) :
  let r := proxyMiddleware e makeHttpRequest transformRequestResponse
             now1 now2 req w in
  let h := w_heap w in
  (∃ err, r.1 = Next err) ∧
  w_configs r.2 = w_configs w ∧
  (makeHttpRequest = Helpers.makeHttpRequest →
   w_http r.2 = w_http w ∧
   r.1 =
     if nullish req then Next PropertyOfNullish
     else if negb (truthy (get h req "method"))
             || negb (truthy (get h req "url"))
             || negb (bool_decide (typeof (get h req "headers") = "object"))
     then Next (PlainError "Invalid request data")
     else Next (ServiceError
                  (ProxyTrafficLogError "Error forwarding proxy request"))).
Proof.
  exact (proxyMiddleware_outcome e makeHttpRequest transformRequestResponse
           now1 now2 req w).
Qed.

End Forwarding.

(** ** Refused messages *)

Section RefusedMessages.
Import ProxyConfig ProxyService MoreExamples Examples.

(** X5.  The three rewriting methods check one thing only, that what
    they are given is an object.  Given anything else ([null],
    [undefined], a number, a string, a boolean) each fails with
    [InvalidRequestError], [modifyProxyRequest] with the message
    [Invalid request data] and the two others with
    [Invalid response data], and changes nothing.  Given an object, each
    succeeds, whether or not the object has a method, a URL, a status
    code or headers. *)
Theorem rewriting_rejects_exactly_non_objects (data : value) (w : world) :
  match data with
  | VRef _ =>
      (∃ v, (modifyProxyRequest data w).1 = Ok v) ∧
      (∃ v, (modifyProxyResponse data w).1 = Ok v) ∧
      (∃ v, (injectCustomResponse data w).1 = Ok v)
  | _ =>
      modifyProxyRequest data w =
        (Err (InvalidRequestError "Invalid request data"), w) ∧
      modifyProxyResponse data w =
        (Err (InvalidRequestError "Invalid response data"), w) ∧
      injectCustomResponse data w =
        (Err (InvalidRequestError "Invalid response data"), w)
  end.
Proof.
  assert (∀ message, invalid_data data = true →
            modify message data w = (Err (InvalidRequestError message), w))
    as Hrefuse.
  { intros message Hi. unfold modify. by rewrite Hi. }
  unfold modifyProxyRequest, modifyProxyResponse, injectCustomResponse.
  destruct data as [| |b|z| |s|l];
    try (split_and!; apply Hrefuse; unfold invalid_data; cbn;
         first [reflexivity | apply orb_true_r]).
  rewrite !(modify_valid _ (VRef l)) by done. cbn [fst].
  split_and!; by eexists.
Qed.

End RefusedMessages.

(** ** A body sent as text *)

Section TextBody.
Import ProxyService MoreExamples Examples.

Lemma chars_keys_NoDup (l : list string) :
  NoDup (imap (λ (i : nat) (c : string), (pretty i, VStr c)) l).*1.
Proof.
  apply NoDup_alt. intros i j k.
  rewrite !list_lookup_fmap, !list_lookup_imap.
  destruct (l !! i) as [a|]; [|done]. destruct (l !! j) as [b|]; [|done].
  cbn. intros [= <-] [= Hij]. by apply (inj pretty) in Hij.
Qed.

(** The copy [{...s}] of a string: its characters under their indices. *)
Lemma own_props_string (h : heap) (s : string) (i : nat) :
  own_props h (VStr s) !! pretty i = VStr <$> (chars s !! i).
Proof.
  cbn [own_props].
  destruct (chars s !! i) as [c|] eqn:Hc; cbn.
  - apply elem_of_list_to_map_1; [apply chars_keys_NoDup|].
    apply list_elem_of_lookup. exists i.
    by rewrite list_lookup_imap, Hc.
  - apply not_elem_of_list_to_map_1.
    intros (j & Hj)%list_elem_of_lookup.
    rewrite list_lookup_fmap, list_lookup_imap in Hj.
    destruct (chars s !! j) as [c|] eqn:Hcj; [|done].
    cbn in Hj. injection Hj as Hj. apply (inj pretty) in Hj. congruence.
Qed.

(** X6.  A body that is a non-empty string does not come back as that
    string.  Each rewriting method returns, as [body], a new object that
    holds the characters of the string one by one, the character at
    position [i] under the key [i]. *)
Theorem text_body_becomes_object_of_characters (data : value) (w : world)
    (s : string) :
  invalid_data data = false →
  get (w_heap w) data "body" = VStr s →
  s ≠ EmptyString →
  let rule (r : result value * world) :=
    ∃ lo lb,
      r.1 = Ok (VRef lo) ∧
      get (w_heap r.2) (VRef lo) "body" = VRef lb ∧
      ∀ i : nat, props (w_heap r.2) lb !! pretty i = VStr <$> (chars s !! i) in
  rule (modifyProxyRequest data w) ∧ rule (modifyProxyResponse data w) ∧
  rule (injectCustomResponse data w).
Proof.
  intros Hv Hbody Hs rule.
  assert (∀ message, rule (modify message data w)) as Hrule.
  { intros message.
    destruct (modify_result message data w Hv)
      as (_ & _ & _ & lo & lh & Hr & _ & _ & _ & _ & _ & _ & Hb).
    destruct Hb as [[Hf _]|(_ & lb & Hlb & _ & _ & _ & Hp)].
    - rewrite Hbody in Hf. cbn in Hf.
      by rewrite bool_decide_eq_false_2 in Hf.
    - exists lo, lb. split; [done|]. split.
      + unfold get. by rewrite Hlb.
      + intros i. rewrite Hp, Hbody. apply own_props_string. }
  split_and!; apply Hrule.
Qed.

Lemma text_body_becomes_object_of_characters_witness :
  ∃ lo lb,
    (modifyProxyRequest (VRef 0) (proxy_world heap_text_body [])).1
      = Ok (VRef lo) ∧
    get (w_heap (modifyProxyRequest (VRef 0) (proxy_world heap_text_body [])).2)
      (VRef lo) "body" = VRef lb ∧
    props (w_heap (modifyProxyRequest (VRef 0) (proxy_world heap_text_body [])).2)
      lb !! pretty 1%nat = Some (VStr "i").
Proof.
  destruct (text_body_becomes_object_of_characters (VRef 0)
              (proxy_world heap_text_body []) "hi" eq_refl eq_refl)
    as [(lo & lb & Hr & Hb & Hc) _]; [discriminate|].
  exists lo, lb. split; [exact Hr|]. split; [exact Hb|]. exact (Hc 1%nat).
Defined.

End TextBody.

(** ** Pages of the traffic query *)

Section TrafficPages.
Import ProxyConfig ProxyService QuerySpec MoreExamples Examples.

(** X7.  A page of [getProxyTraffic] is bounded.  For a page and a limit
    from 1 on and a store whose sort keeps the records it is given, the
    list returned has at most [limit] records and at most as many as are
    stored, and it is empty when the offset [(page - 1) * limit] reaches
    the number of stored records. *)
Theorem traffic_page_is_bounded (engine : string → option (string → bool))
    (sort : list document → list document) (f : filters) (w : world)
    (r : list document) :
  sorts_newest_first sort →
  (1 ≤ page f)%Z → (1 ≤ limit f)%Z →
  (getProxyTraffic engine sort f w).1 = Ok r →
  (List.length r ≤ Z.to_nat (limit f))%nat ∧
  (List.length r ≤ List.length (w_configs w))%nat ∧
  ((Z.of_nat (List.length (w_configs w)) ≤ (page f - 1) * limit f)%Z → r = []).
Proof.
  intros Hsort Hpage Hlimit.
  rewrite (getProxyTraffic_result engine sort f w Hpage Hlimit).
  destruct (match given (f_targetUrl f) with Some _ => _ | None => _ end)
    as [test|]; [|done].
  intros [= <-].
  set (found := sort (List.filter (matches test f) (w_configs w))).
  assert (List.length found ≤ List.length (w_configs w))%nat as Hfound.
  { unfold found.
    destruct (Hsort (List.filter (matches test f) (w_configs w))) as [Hp _].
    rewrite (Permutation_length Hp). apply filter_length_le. }
  split_and!.
  - rewrite length_take. lia.
  - rewrite length_take, length_drop. lia.
  - intros Hpast. rewrite drop_ge; [apply take_nil|]. lia.
Qed.

Lemma traffic_page_is_bounded_witness :
  (List.length [traffic_doc "2" 7 None] ≤ Z.to_nat (limit (page_of 1 1)))%nat.
Proof.
  apply (traffic_page_is_bounded no_engine newest_first_stable (page_of 1 1)
           (proxy_world ∅ [traffic_doc "1" 5 None; traffic_doc "2" 7 None])
           [traffic_doc "2" 7 None] (isort_sorts false)).
  - cbn. lia.
  - cbn. lia.
  - reflexivity.
Defined.

(** X8.  A filter on [targetUrl] or [method] that is the empty string
    counts as absent: two queries that agree on the dates, the page and
    the limit, and whose filters differ only in being empty or absent,
    get the same answer. *)
Theorem empty_filters_are_ignored (engine : string → option (string → bool))
    (sort : list document → list document) (f f' : filters) (w : world) :
  startDate f = startDate f' → endDate f = endDate f' →
  page f = page f' → limit f = limit f' →
  given (f_targetUrl f) = given (f_targetUrl f') →
  given (f_method f) = given (f_method f') →
  getProxyTraffic engine sort f w = getProxyTraffic engine sort f' w.
Proof.
  intros Hs He Hp Hl Hu Hm. unfold getProxyTraffic.
  rewrite Hu, Hp, Hl.
  destruct (match given (f_targetUrl f') with Some _ => _ | None => _ end)
    as [test|]; [|done].
  assert (List.filter (matches test f) (w_configs w)
          = List.filter (matches test f') (w_configs w)) as ->; [|done].
  apply filter_ext. intros d. unfold matches. by rewrite Hs, He, Hm.
Qed.

Lemma empty_filters_are_ignored_witness :
  getProxyTraffic no_engine newest_first_stable (query (Some EmptyString))
    (proxy_world ∅ [traffic_doc "1" 5 None])
  = getProxyTraffic no_engine newest_first_stable (query None)
      (proxy_world ∅ [traffic_doc "1" 5 None]).
Proof.
  apply (empty_filters_are_ignored no_engine newest_first_stable
           (query (Some EmptyString)) (query None)); reflexivity.
Defined.

End TrafficPages.

(** ** The route of the configuration update, and host names *)

Section ConfigurationRoute.
Import ProxyConfig ProxyService ProxyRoutes Hostname MoreExamples Examples.

Lemma scan_after (s : string) :
  (hostname_scan true s = true → after_host_char s = true) ∧
  (hostname_scan false s = true →
   ∃ c s', s = String c s' ∧ host_char c = true ∧ after_host_char s' = true).
Proof.
  induction s as [|c s [IH1 IH2]]; cbn [hostname_scan after_host_char].
  - split; [done|discriminate].
  - destruct (host_char c) eqn:Hc.
    + split; [done|]. intros Hs. exists c, s. auto.
    + case_bool_decide as Hdot; [|split; discriminate].
      split; [|discriminate]. cbn [andb]. intros Hs.
      destruct (IH2 Hs) as (c' & s' & -> & Hc' & Hs').
      subst c. by rewrite Hc', Hs'.
Qed.

(** X9.  On the host name, the check of the route
    [PUT /api/proxy/config] is no stricter than the validator of the
    schema: a host name the schema accepts passes the route's pattern. *)
Theorem schema_valid_config_passes_route (hostname : option string) :
  valid_targetHostname hostname = true →
  check_targetHostname hostname = true.
Proof.
  destruct hostname as [s|]; [|done]. cbn.
  intros [_ Hs]%andb_true_iff.
  destruct (proj2 (scan_after s) Hs) as (c & s' & -> & Hc & Hs').
  by rewrite Hc, Hs'.
Qed.

Lemma schema_valid_config_passes_route_witness :
  check_targetHostname (Some "example.com") = true.
Proof.
  apply (schema_valid_config_passes_route (Some "example.com")).
  reflexivity.
Defined.

(** X10.  On the application, a [PUT /api/proxy/config] never reaches
    the route.  [app.js] mounts [proxyMiddleware] in front of the
    router, and the middleware ends every request in [next(err)]: the
    request goes to the error handler, whatever its body, and the
    stored configuration is as it was.  With [helpers.js] as it is, and
    for a request that has a method, a URL and headers, as every
    request Express hands over has, the error is the
    [ProxyTrafficLogError] of [forwardProxyRequest], and no request is
    made to the target. *)
Theorem put_config_request_ends_in_error_handler (e : env)
    (makeHttpRequest : option (http_call → heap → option (value * heap)))
    (transformRequestResponse : option (value → heap → option (value * heap)))
    (now1 now2 now : Z) (req : value) (body : paths) (w : world) :
  let r := App.put_api_proxy_config e makeHttpRequest transformRequestResponse
             now1 now2 now req body w in
  let h := w_heap w in
  (∃ err, r.1 = App.ErrorHandler err) ∧
  w_configs r.2 = w_configs w ∧
  (makeHttpRequest = Helpers.makeHttpRequest →
   truthy (get h req "method") = true →
   truthy (get h req "url") = true →
   typeof (get h req "headers") = "object" →
   r.1 = App.ErrorHandler
           (ProxyMiddleware.ServiceError
              (ProxyTrafficLogError "Error forwarding proxy request")) ∧
   w_http r.2 = w_http w).
Proof.
  intros r h. subst r.
  unfold App.put_api_proxy_config, App.dispatch, App.middleware_handler.
  pose proof (proxyMiddleware_outcome e makeHttpRequest
                transformRequestResponse now1 now2 req w)
    as ([err Herr] & Hcfg & Hrepo).
  cbn zeta in Hrepo. fold h in Hrepo.
  destruct (ProxyMiddleware.proxyMiddleware _ _ _ _ _ _ _) as [[s hd b|err'] w'];
    cbn [fst snd] in *; [done|].
  split_and!; [by eexists|done|].
  intros Hmk Hm Hu Hh. destruct (Hrepo Hmk) as [Hhttp Hr].
  split; [|done].
  destruct (nullish req) eqn:Hn; [by destruct req|].
  rewrite Hm, Hu, bool_decide_eq_true_2 in Hr by done.
  by injection Hr as ->.
Qed.

Lemma put_config_request_ends_in_error_handler_witness :
  w_configs
    (App.put_api_proxy_config proxy_env Helpers.makeHttpRequest
       Helpers.transformRequestResponse 1 2 3 (VRef 0) spaced_config
       (proxy_world heap_put_request [new "0" 0 good_config])).2
  = [new "0" 0 good_config].
Proof.
  apply (put_config_request_ends_in_error_handler proxy_env
           Helpers.makeHttpRequest Helpers.transformRequestResponse 1 2 3
           (VRef 0) spaced_config
           (proxy_world heap_put_request [new "0" 0 good_config])).
Defined.

(** Reading a run of label characters. *)
Lemma hostname_scan_label (b : bool) (l rest : string) :
  Userscript.all_chars host_char l = true →
  hostname_scan b (l ++ rest) =
    hostname_scan (b || negb (bool_decide (l = EmptyString))) rest.
Proof.
  revert b. induction l as [|c l IH]; intros b; cbn [Userscript.all_chars].
  - intros _. change (EmptyString ++ rest) with rest.
    by rewrite bool_decide_eq_true_2, orb_false_r.
  - intros [Hc Hl]%andb_true_iff.
    change (String c l ++ rest) with (String c (l ++ rest)).
    cbn [hostname_scan]. rewrite Hc, IH by done.
    rewrite (bool_decide_eq_false_2 (String c l = EmptyString)) by done.
    cbn. by rewrite orb_true_r.
Qed.

Lemma hostname_scan_dotted (labels : list string) :
  Forall label labels → hostname_scan true (dotted labels) = true.
Proof.
  induction 1 as [|l ls [Hne Hl] _ IH]; cbn [dotted]; [done|].
  change ("." ++ l ++ dotted ls) with (String "."%char (l ++ dotted ls)).
  cbn [hostname_scan]. change (host_char ".") with false. cbn.
  rewrite hostname_scan_label by done.
  rewrite (bool_decide_eq_true_2 ("."%char = "."%char)) by done.
  by rewrite (bool_decide_eq_false_2 (l = EmptyString)).
Qed.

Lemma hostname_scan_labels (s : string) (b : bool) :
  hostname_scan b s = true →
  ∃ l ls,
    Userscript.all_chars host_char l = true ∧
    (b = false → l ≠ EmptyString) ∧
    Forall label ls ∧
    s = l ++ dotted ls.
Proof.
  revert b. induction s as [|c s IH]; intros b; cbn [hostname_scan].
  - intros ->. exists EmptyString, []. split_and!; try done.
  - destruct (host_char c) eqn:Hc.
    + intros (l & ls & Hl & _ & Hls & ->)%IH.
      exists (String c l), ls. split_and!; try done.
      cbn. by rewrite Hc, Hl.
    + case_bool_decide as Hdot; [|discriminate].
      intros [-> Hs]%andb_true_iff.
      destruct (IH false Hs) as (l & ls & Hl & Hne & Hls & ->).
      exists EmptyString, (l :: ls). split_and!; try done.
      * constructor; [|done]. split; [by apply Hne|done].
      * by subst c.
Qed.

(** X11.  The validator of [targetHostname] accepts exactly the
    dot-separated sequences of one or more labels, a label being a
    non-empty run of letters, digits and hyphens: no empty host name, no
    leading, trailing or doubled dot, no other character. *)
Theorem hostname_validator_accepts_dotted_labels (value : string) :
  hostname_validator value = true ↔
  ∃ labels, labels ≠ [] ∧ Forall label labels ∧ value = join_dots labels.
Proof.
  unfold hostname_validator. split.
  - intros (l & ls & Hl & Hne & Hls & ->)%hostname_scan_labels.
    exists (l :: ls). split_and!; try done.
    constructor; [|done]. split; [by apply Hne|done].
  - intros ([|l ls] & Hne & Hls & ->); [done|].
    apply Forall_cons in Hls as [[Hl1 Hl2] Hls]. cbn [join_dots].
    rewrite hostname_scan_label by done.
    rewrite bool_decide_eq_false_2 by done. cbn.
    by apply hostname_scan_dotted.
Qed.

End ConfigurationRoute.

(** ** Creating, reading, updating and deleting scripts *)

Section RegistryOperations.
Import Userscript ScriptService ScriptRun ScriptFacts MoreExamples Examples.

Lemma findById_Some (id : string) (coll : list document) (d : document) :
  findById id coll = Some d → d ∈ coll ∧ _id d = id.
Proof.
  unfold findById. intros [Hin Hid%bool_decide_eq_true]%find_some.
  split; [by apply list_elem_of_In|done].
Qed.

Lemma findById_None (id : string) (coll : list document) :
  findById id coll = None ↔ ∀ d, d ∈ coll → _id d ≠ id.
Proof.
  unfold findById. split.
  - intros Hnone d Hd%list_elem_of_In Hid.
    pose proof (find_none _ _ Hnone d Hd) as Hf. cbn in Hf.
    by rewrite bool_decide_eq_true_2 in Hf.
  - intros Hall. induction coll as [|e coll IH]; cbn; [done|].
    rewrite bool_decide_eq_false_2.
    + apply IH. intros d Hd. apply Hall. apply elem_of_cons. by right.
    + apply Hall. apply elem_of_cons. by left.
Qed.

Lemma findById_last (id : string) (coll : list document) (d : document) :
  (∀ d0, d0 ∈ coll → _id d0 ≠ id) → _id d = id →
  findById id (app coll [d]) = Some d.
Proof.
  intros Hall Hid. induction coll as [|e coll IH]; cbn.
  - by rewrite bool_decide_eq_true_2.
  - rewrite bool_decide_eq_false_2.
    + apply IH. intros d0 Hd0. apply Hall. apply elem_of_cons. by right.
    + apply Hall. apply elem_of_cons. by left.
Qed.

(** X12.  With [helpers.js] as it is, no script is ever stored through
    the service.  Starting from an empty registry, whatever calls are
    made, the registry is empty: [getScripts] returns the empty list,
    every create fails with the [InvalidScriptError] of message
    [Error creating userscript], and every execution fails, for want of
    a script, with the [ScriptExecutionError] of message
    [Error executing userscript (ID: id)]. *)
Theorem no_script_is_ever_stored (H : host) (w : world) :
  sanitizeScript H = Helpers.sanitizeScript →
  reachable H w →
  w_scripts w = [] ∧
  getScripts w = (Ok [], w) ∧
  (∀ now scriptData,
     createScript H now scriptData w =
       (Err (InvalidScriptError "Error creating userscript"), w)) ∧
  (∀ id context,
     executeScript H id context w =
       Settled (Err (ScriptExecutionError
                       ("Error executing userscript (ID: " ++ id ++ ")"))) w).
Proof.
  intros Hundefined Hw.
  assert (w_scripts w = []) as Hempty.
  { induction Hw as [h|w h _ IH|w o _ IH]; [done|done|].
    destruct o as [|id|now o|id u|id|id c]; cbn.
    - done.
    - unfold getScriptById. by destruct (findById id (w_scripts w)).
    - by rewrite createScript_undefined.
    - unfold updateScript. by rewrite Hundefined.
    - unfold deleteScript, findByIdAndDelete. by rewrite IH.
    - by rewrite (proj1 (execute_registry H id c w)). }
  split; [done|]. split; [unfold getScripts; by rewrite Hempty|].
  split; [intros now scriptData; by apply createScript_undefined|].
  intros id context. unfold executeScript, getScriptById. by rewrite Hempty.
Qed.

Lemma no_script_is_ever_stored_witness :
  w_scripts (apply repository_host (CreateScript 3 job) empty_registry) = [].
Proof.
  apply (no_script_is_ever_stored repository_host); [reflexivity|].
  apply (reach_call repository_host empty_registry (CreateScript 3 job)).
  apply (reach_start repository_host ∅).
Defined.

Lemma delete_first_iff (id : string) (coll : list document) (d : document) :
  NoDup (_id <$> coll) →
  d ∈ delete_first id coll ↔ d ∈ coll ∧ _id d ≠ id.
Proof.
  induction coll as [|e coll IH]; cbn.
  - intros _. split; [by intros ?%elem_of_nil|by intros [?%elem_of_nil _]].
  - intros [He Hrest]%NoDup_cons. case_bool_decide as Hid.
    + split.
      * intros Hd. split; [apply elem_of_cons; by right|].
        intros Heq. apply He. apply list_elem_of_fmap. exists d.
        split; [congruence|done].
      * intros [[->|Hd]%elem_of_cons Hne]; done.
    + rewrite !elem_of_cons, (IH Hrest). split.
      * intros [->|[Hd Hne]]; [split; [by left|done]|split; [by right|done]].
      * intros [[->|Hd] Hne]; [by left|by right].
Qed.

(** X13.  [deleteScript] removes exactly the script with the identifier
    it is given.  In a state the registry can reach: if no script has
    that identifier the call fails with [InvalidScriptError] and changes
    nothing; otherwise it succeeds, no script is left under that
    identifier, and the scripts left are exactly the other ones, as they
    were. *)
Theorem delete_script_removes_exactly_one (H : host) (id : string)
    (w : world) :
  reachable H w →
  match findById id (w_scripts w) with
  | None =>
      deleteScript id w =
        (Err (InvalidScriptError ("Error deleting userscript (ID: " ++ id ++ ")")), w)
  | Some _ =>
      (deleteScript id w).1 = Ok tt ∧
      findById id (w_scripts (deleteScript id w).2) = None ∧
      ∀ d, d ∈ w_scripts (deleteScript id w).2 ↔
           d ∈ w_scripts w ∧ _id d ≠ id
  end.
Proof.
  intros (_ & Hids & _)%reachable_well_formed.
  unfold deleteScript, findByIdAndDelete.
  destruct (findById id (w_scripts w)) as [d0|]; [|done].
  cbn. split; [done|].
  split; [|intros d; by apply delete_first_iff].
  apply findById_None. intros d Hd. by apply delete_first_iff in Hd as [_ ?].
Qed.

Lemma delete_script_removes_exactly_one_witness :
  findById "0"
    (w_scripts (deleteScript "0"
                  (createScript script_host 3 job empty_registry).2).2) = None.
Proof.
  assert (reachable script_host
            (createScript script_host 3 job empty_registry).2) as Hr.
  { apply (reach_call script_host empty_registry (CreateScript 3 job)).
    apply (reach_start script_host ∅). }
  pose proof (delete_script_removes_exactly_one script_host "0" _ Hr) as Hd.
  exact (proj1 (proj2 Hd)).
Defined.



End RegistryOperations.

(** ** What the registry stores *)

Section StoredScripts.
Import Userscript ScriptService ScriptRun ScriptFacts MoreExamples Examples.

Lemma required_nonempty (s : string) :
  required (Some s) = true → s ≠ EmptyString.
Proof. cbn. intros Hs ->. by rewrite bool_decide_eq_true_2 in Hs. Qed.

Lemma create_meets_schema (id : string) (now : Z) (o : paths)
    (coll : list document) (d : document) (coll' : list document) :
  create id now o coll = Some (d, coll') → meets_schema d.
Proof.
  unfold create. destruct (validate (cast o)) eqn:Hv; [|done].
  unfold validate in Hv.
  destruct (p_name (cast o)) as [n|]; [|done].
  destruct (p_description (cast o)) as [de|]; [|done].
  destruct (p_content (cast o)) as [co|]; [|done].
  destruct (name_taken None n coll); [done|].
  intros [= <- _].
  apply andb_true_iff in Hv as [[[_ Hn]%andb_true_iff Hd]%andb_true_iff Hc].
  split_and!; cbn; [done|by apply required_nonempty..].
Qed.

Lemma apply_update_meets_schema (u : paths) (d : document) :
  validate_update u = true → meets_schema d → meets_schema (apply_update u d).
Proof.
  unfold validate_update. intros [[Hn Hd]%andb_true_iff Hc]%andb_true_iff.
  intros (Mn & Md & Mc). split_and!; cbn.
  - destruct (p_name u); cbn; [|done]. by apply andb_true_iff in Hn as [_ ?].
  - destruct (p_description u); cbn; [|done]. by apply required_nonempty.
  - destruct (p_content u); cbn; [|done]. by apply required_nonempty.
Qed.

Lemma update_first_meets_schema (id : string) (u : paths)
    (coll : list document) :
  validate_update u = true →
  Forall meets_schema coll → Forall meets_schema (update_first id u coll).
Proof.
  intros Hu. induction 1 as [|d coll Hd Hcoll IH]; cbn; [done|].
  case_bool_decide; constructor; try done.
  by apply apply_update_meets_schema.
Qed.

(** X15.  The model keeps every stored script within the schema.  In a
    collection whose scripts all have a name that is a non-empty run of
    letters, digits, underscores and hyphens, and a non-empty
    description and content, this still holds after a [save()] of a new
    document that was accepted, after a [findByIdAndUpdate] under
    [runValidators] that was accepted, and after a
    [findByIdAndDelete]. *)
Theorem stored_scripts_meet_schema (coll : list document) :
  Forall meets_schema coll →
  (∀ id now o d coll',
     create id now o coll = Some (d, coll') →
     meets_schema d ∧ Forall meets_schema coll') ∧
  (∀ id u r coll',
     findByIdAndUpdate id u coll = Some (r, coll') →
     Forall meets_schema coll' ∧ ∀ d, r = Some d → meets_schema d) ∧
  (∀ id, Forall meets_schema (findByIdAndDelete id coll).2).
Proof.
  intros Hall. split_and!.
  - intros id now o d coll' Hc.
    pose proof (create_meets_schema _ _ _ _ _ _ Hc) as Hd.
    destruct (create_inv _ _ _ _ _ _ Hc) as (-> & _ & _).
    split; [done|]. apply Forall_app. split; [done|]. by constructor.
  - intros id u r coll'. unfold findByIdAndUpdate.
    destruct (validate_update (cast u)) eqn:Hv; [|done].
    destruct (findById id coll) as [d0|] eqn:Hfind.
    + destruct (from_option _ false _); [done|]. intros [= <- <-].
      split; [by apply update_first_meets_schema|].
      intros d [= <-]. apply apply_update_meets_schema; [done|].
      apply find_some in Hfind as [Hin _].
      by apply (proj1 (Forall_forall _ _) Hall), list_elem_of_In.
    + intros [= <- <-]. split; [done|]. by intros d.
  - intros id. cbn. apply Forall_forall. intros d0 Hd%delete_first_in.
    by apply (proj1 (Forall_forall _ _) Hall).
Qed.

Lemma stored_scripts_meet_schema_witness :
  meets_schema {| _id := "0"; name := "job"; description := "another job";
                  content := "value"; createdAt := 3; updatedAt := 3 |}.
Proof.
  destruct (stored_scripts_meet_schema [] (Forall_nil_2 _)) as (Hcreate & _).
  exact (proj1 (Hcreate "0" 3%Z padded_job _ _ eq_refl)).
Defined.

Lemma trim_start_blank (p s : string) :
  blank p → trim_start (p ++ s) = trim_start s.
Proof.
  unfold blank. induction p as [|c p IH]; cbn [all_chars]; [done|].
  intros [Hc Hp]%andb_true_iff.
  change (String c p ++ s) with (String c (p ++ s)).
  cbn [trim_start]. rewrite Hc. by apply IH.
Qed.

Lemma trim_end_blank (q : string) : blank q → trim_end q = EmptyString.
Proof.
  unfold blank. induction q as [|c q IH]; cbn [all_chars trim_end]; [done|].
  intros [Hc Hq]%andb_true_iff. by rewrite IH, Hc.
Qed.

Lemma trim_end_name_blank (n q : string) :
  all_chars name_char n = true → n ≠ EmptyString → blank q →
  trim_end (n ++ q) = n.
Proof.
  intros Hn Hne Hq. induction n as [|c n IH]; [done|].
  cbn [all_chars] in Hn. apply andb_true_iff in Hn as [Hc Hn].
  change (String c n ++ q) with (String c (n ++ q)). cbn [trim_end].
  destruct n as [|c' n].
  - change (EmptyString ++ q) with q. rewrite trim_end_blank by done.
    by rewrite name_char_not_white_space.
  - by rewrite IH.
Qed.

(** White space around a valid name is dropped by the setter. *)
Lemma trim_padded (p n q : string) :
  blank p → blank q → name_validator n = true → trim (p ++ n ++ q) = n.
Proof.
  intros Hp Hq [Hne%negb_true_iff%bool_decide_eq_false Hn]%andb_true_iff.
  unfold trim. rewrite trim_start_blank by done.
  destruct n as [|c n]; [done|].
  change (String c n ++ q) with (String c (n ++ q)). cbn [trim_start].
  cbn [all_chars] in Hn. pose proof Hn as [Hc _]%andb_true_iff.
  rewrite name_char_not_white_space by done.
  change (String c (n ++ q)) with (String c n ++ q).
  by apply trim_end_name_blank.
Qed.

(** X16.  White space around a name does not count.  When the name of
    a document to save is a valid name with white space before or after
    it, the setter [trim] drops the white space: the document is stored
    under the bare name when no stored script has it and a description
    and a content are given, and the [save()] is rejected when a stored
    script already has the bare name. *)
Theorem padded_name_is_stored_trimmed (id : string) (now : Z) (o : paths)
    (coll : list document) (p n q : string) :
  blank p → blank q → name_validator n = true →
  p_name o = Some (p ++ n ++ q) →
  (n ∈ name <$> coll → create id now o coll = None) ∧
  (∀ d coll', create id now o coll = Some (d, coll') → name d = n) ∧
  (n ∉ name <$> coll →
   required (trim <$> p_description o) = true → required (p_content o) = true →
   ∃ d, create id now o coll = Some (d, app coll [d]) ∧ name d = n).
Proof.
  intros Hp Hq Hn Hname.
  assert (p_name (cast o) = Some n) as Hcast.
  { cbn. rewrite Hname. cbn. by rewrite trim_padded. }
  split_and!.
  - intros Hin. by apply (create_taken _ _ _ _ n).
  - intros d coll' Hc. unfold create in Hc.
    destruct (validate _); [|done]. rewrite Hcast in Hc.
    destruct (p_description _); [|done]. destruct (p_content _); [|done].
    destruct (name_taken None n coll); [done|].
    by injection Hc as <-.
  - intros Hfree Hd Hc. unfold create.
    assert (validate (cast o) = true) as ->.
    { unfold validate. rewrite Hcast. cbn [cast p_description p_content].
      rewrite Hd, Hc. cbn. rewrite Hn.
      apply andb_true_iff in Hn as [-> _]. done. }
    rewrite Hcast. cbn [cast p_description p_content].
    destruct (p_description o) as [de|]; [|done].
    destruct (p_content o) as [co|]; [|done]. cbn.
    destruct (name_taken None n coll) eqn:Ht.
    { by apply name_taken_None in Ht. }
    by eexists.
Qed.

Lemma padded_name_is_stored_trimmed_witness :
  create "2" 5 padded_job (w_scripts (registry_with "value")) = None.
Proof.
  apply (padded_name_is_stored_trimmed "2" 5 padded_job
           (w_scripts (registry_with "value")) "  " "job" " ");
    try reflexivity.
  apply list_elem_of_fmap.
  exists {| _id := "1"; name := "job"; description := "a job";
            content := "value"; createdAt := 0; updatedAt := 0 |}.
  split; [reflexivity|]. apply elem_of_cons. left. reflexivity.
Defined.

End StoredScripts.

(** ** What the traffic query finds in a running deployment *)

Section TrafficOfADeployment.
Import ProxyConfig ProxyService ProxyRun QuerySpec MoreExamples Examples.

(** No stored document has a [method] or a [targetUrl]. *)
Lemma reachable_no_traffic_fields (H : host) (w : world) :
  reachable H w →
  Forall (λ d, method d = None ∧ targetUrl d = None) (w_configs w).
Proof.
  induction 1 as [h|w h _ IH|w o _ IH]; cbn; [constructor|done|].
  destruct (is_update o) eqn:Hu; [|by rewrite apply_configs].
  destruct o; try discriminate. cbn. rewrite updateProxyConfig_configs.
  destruct (w_configs w) as [|d rest]; [by repeat constructor|].
  apply Forall_cons in IH as [Hd Hrest]. by constructor.
Qed.

(** X17.  The traffic query only ever finds the proxy configuration.
    Since no traffic record is ever stored, in every state a deployment
    can reach a successful [getProxyTraffic] returns either nothing or
    the one stored configuration document, the very document
    [getProxyConfig] returns; and it returns nothing as soon as a
    [method] or [targetUrl] filter is given, no stored document having
    such a field. *)
Theorem traffic_query_finds_only_the_configuration (H : host)
    (sort : list document → list document) (f : filters) (w : world)
    (r : list document) :
  reachable H w →
  sorts_newest_first sort →
  (1 ≤ page f)%Z → (1 ≤ limit f)%Z →
  (getProxyTraffic (engine H) sort f w).1 = Ok r →
  (r = [] ∨ ∃ d, r = [d] ∧ (getProxyConfig w).1 = Ok (Some d)) ∧
  (given (f_method f) ≠ None ∨ given (f_targetUrl f) ≠ None → r = []).
Proof.
  intros Hw Hsort Hpage Hlimit.
  pose proof (reachable_length H w Hw) as Hlen.
  pose proof (reachable_no_traffic_fields H w Hw) as Hnone.
  rewrite (getProxyTraffic_result (engine H) sort f w Hpage Hlimit).
  destruct (match given (f_targetUrl f) with Some _ => _ | None => _ end)
    as [test|] eqn:Hq; [|done].
  intros [= <-].
  destruct (Hsort (List.filter (matches test f) (w_configs w))) as [Hp _].
  unfold getProxyConfig, findOne. cbn [fst].
  destruct (w_configs w) as [|d [|d' rest]]; [| |cbn in Hlen; lia].
  - cbn [List.filter] in *. apply Permutation_nil_r in Hp. rewrite Hp.
    rewrite drop_nil, take_nil. split; [by left|done].
  - apply Forall_cons in Hnone as [[Hm Hu] _]. cbn [List.filter] in *.
    destruct (matches test f d) eqn:Hmatch.
    + apply Permutation_singleton_r in Hp. rewrite Hp. split.
      * destruct (Z.to_nat ((page f - 1) * limit f)) as [|k]; cbn.
        -- right. exists d. split; [|reflexivity].
           destruct (Z.to_nat (limit f)) as [|n] eqn:Hn; [lia|].
           cbn. by rewrite take_nil.
        -- left. by rewrite drop_nil, take_nil.
      * intros Hfilter. exfalso. unfold matches in Hmatch.
        rewrite Hm, Hu in Hmatch.
        destruct Hfilter as [Hf|Hf].
        -- destruct (given (f_method f)); [|done].
           rewrite bool_decide_eq_false_2 in Hmatch by done.
           by rewrite andb_false_r in Hmatch.
        -- destruct (given (f_targetUrl f)) as [pat|]; [|done].
           destruct (RegExp.compile_i (engine H) pat); [|done].
           injection Hq as <-. by rewrite andb_false_r in Hmatch.
    + apply Permutation_nil_r in Hp. rewrite Hp.
      rewrite drop_nil, take_nil. split; [by left|done].
Qed.

Lemma traffic_query_finds_only_the_configuration_witness :
  [ProxyConfig.new "0" 7 good_config] = []
  ∨ ∃ d, [ProxyConfig.new "0" 7 good_config] = [d] ∧
         (getProxyConfig
            (ProxyRun.apply proxy_host (UpdateProxyConfig 7 good_config)
               (proxy_world ∅ []))).1 = Ok (Some d).
Proof.
  apply (traffic_query_finds_only_the_configuration proxy_host
           newest_first_stable (page_of 1 10)
           (ProxyRun.apply proxy_host (UpdateProxyConfig 7 good_config)
              (proxy_world ∅ []))
           [ProxyConfig.new "0" 7 good_config]).
  - apply reach_call. apply (reach_start proxy_host ∅).
  - apply isort_sorts.
  - cbn. lia.
  - cbn. lia.
  - reflexivity.
Defined.

End TrafficOfADeployment.

(** ** Rewriting leaves its input alone, and rewriting twice *)

Section RewritingTwice.
Import ProxyService MoreExamples Examples.

(** X18.  [modifyProxyRequest] and [modifyProxyResponse] do not touch
    what they are given: the object returned is a new one, every object
    that existed before the call (the submitted one included) is
    afterwards as it was, no request goes to the target and nothing is
    written to the store. *)
Theorem modify_leaves_its_input_alone (data : value) (w : world) :
  invalid_data data = false →
  let rule (r : result value * world) :=
    (∃ lo, r.1 = Ok (VRef lo) ∧ (lo ∉ dom (w_heap w))) ∧
    (∀ l, l ∈ dom (w_heap w) → w_heap r.2 !! l = w_heap w !! l) ∧
    w_http r.2 = w_http w ∧ w_configs r.2 = w_configs w in
  rule (modifyProxyRequest data w) ∧ rule (modifyProxyResponse data w).
Proof.
  intros Hv rule.
  assert (∀ message, rule (modify message data w)) as Hrule.
  { intros message.
    destruct (modify_result message data w Hv)
      as (Hh & Hc & Hold & lo & lh & Hr & Hlo & _).
    split_and!; try done. by exists lo. }
  split; apply Hrule.
Qed.

Lemma modify_leaves_its_input_alone_witness :
  w_heap (modifyProxyRequest (VRef 0) (proxy_world heap_nested [])).2 !! 0%nat
  = heap_nested !! 0%nat.
Proof.
  destruct (modify_leaves_its_input_alone (VRef 0)
              (proxy_world heap_nested []) eq_refl) as [(_ & Hold & _) _].
  apply Hold. apply elem_of_dom. eexists. reflexivity.
Defined.

(** The shared body of the rewriting methods, applied twice. *)
Lemma modify_twice (message message' : string)
    (data : value) (w : world) :
  invalid_data data = false →
  let r1 := modify message data w in
  let h1 := w_heap r1.2 in
  ∃ v1 v2,
    r1.1 = Ok v1 ∧ (modify message' v1 r1.2).1 = Ok v2 ∧
    let h2 := w_heap (modify message' v1 r1.2).2 in
    (∀ k, k ≠ "headers" → k ≠ "body" →
          get h2 v2 k = get h1 v1 k) ∧
    own_props h2 (get h2 v2 "headers") = own_props h1 (get h1 v1 "headers") ∧
    (get h1 v1 "body" = VNull → get h2 v2 "body" = VNull) ∧
    own_props h2 (get h2 v2 "body") = own_props h1 (get h1 v1 "body").
Proof.
  intros Hv r1 h1.
  destruct (modify_result message data w Hv)
    as (_ & _ & _ & lo & lh & Hr & _ & _ & _ & _ & Hhd & _ & Hbody).
  change (modify message data w) with r1 in Hr, Hhd, Hbody.
  change (w_heap r1.2) with h1 in Hhd, Hbody.
  exists (VRef lo).
  destruct (modify_result message' (VRef lo) r1.2 eq_refl)
    as (_ & _ & _ & lo' & lh' & Hr' & _ & _ & _ & Hk' & Hhd' & Hph' & Hbody').
  fold h1 in Hk', Hph', Hbody'.
  exists (VRef lo'). split; [done|]. split; [done|]. cbn zeta.
  split_and!.
  - intros k Hk1 Hk2. unfold get. by rewrite Hk'.
  - unfold get at 1. rewrite Hhd'. cbn [default from_option id own_props]. by rewrite Hph'.
  - intros Hnull. rewrite Hnull in Hbody'. cbn [truthy] in Hbody'.
    destruct Hbody' as [[_ Hb]|[? _]]; [|done]. unfold get. by rewrite Hb.
  - destruct Hbody' as [[Hf Hb]|(Ht & lb' & Hb & _ & _ & _ & Hp)].
    + unfold get at 1. rewrite Hb. cbn [default from_option id own_props].
      destruct Hbody as [[_ Hb1]|(_ & lb & Hb1 & _)].
      * unfold get. by rewrite Hb1.
      * unfold get in Hf. rewrite Hb1 in Hf. done.
    + unfold get at 1. rewrite Hb. cbn [default from_option id own_props]. by rewrite Hp.
Qed.

(** X19.  Rewriting what was already rewritten gives the same content
    again.  When the value returned by one rewriting method is given to
    a rewriting method once more, the second result has the same
    top-level properties as the first apart from [headers] and [body],
    its [headers] object has the same properties as that of the first,
    and its [body] is [null] if that of the first is, and else an object
    with the same properties. *)
Theorem rewriting_twice_copies_again
    (first second : value → world → result value * world)
    (data : value) (w : world) :
  first ∈ [modifyProxyRequest; modifyProxyResponse; injectCustomResponse] →
  second ∈ [modifyProxyRequest; modifyProxyResponse; injectCustomResponse] →
  invalid_data data = false →
  let r1 := first data w in
  let h1 := w_heap r1.2 in
  ∃ v1 v2,
    r1.1 = Ok v1 ∧ (second v1 r1.2).1 = Ok v2 ∧
    let h2 := w_heap (second v1 r1.2).2 in
    (∀ k, k ≠ "headers" → k ≠ "body" →
          get h2 v2 k = get h1 v1 k) ∧
    own_props h2 (get h2 v2 "headers") = own_props h1 (get h1 v1 "headers") ∧
    (get h1 v1 "body" = VNull → get h2 v2 "body" = VNull) ∧
    own_props h2 (get h2 v2 "body") = own_props h1 (get h1 v1 "body").
Proof.
  intros Hfirst Hsecond Hv.
  assert (∃ message, first = modify message) as [message ->].
  { repeat (apply elem_of_cons in Hfirst as [->|Hfirst]; [by eexists|]).
    by apply elem_of_nil in Hfirst. }
  assert (∃ message, second = modify message) as [message' ->].
  { repeat (apply elem_of_cons in Hsecond as [->|Hsecond]; [by eexists|]).
    by apply elem_of_nil in Hsecond. }
  exact (modify_twice message message' data w Hv).
Qed.

Lemma rewriting_twice_copies_again_witness :
  ∃ v1 v2,
    (modifyProxyRequest (VRef 0) (proxy_world heap_nested [])).1 = Ok v1 ∧
    (modifyProxyResponse v1
       (modifyProxyRequest (VRef 0) (proxy_world heap_nested [])).2).1 = Ok v2.
Proof.
  destruct (rewriting_twice_copies_again modifyProxyRequest modifyProxyResponse
              (VRef 0) (proxy_world heap_nested []))
    as (v1 & v2 & H1 & H2 & _).
  - apply elem_of_cons. left. reflexivity.
  - apply elem_of_cons. right. apply elem_of_cons. left. reflexivity.
  - reflexivity.
  - exists v1, v2. split; [exact H1|exact H2].
Defined.

End RewritingTwice.
